(** * Connection inference between neumes and syllables

    A verification development for [findConnections], the function of the
    annotation console that links every neume box to the syllable box it
    belongs to.

    JavaScript numbers are IEEE 754 binary64 values; they are modelled by
    Rocq's primitive floats, whose operations are the same binary64
    operations (NaN and the infinities included). *)

From Stdlib Require Import String Bool Arith ZArith Lia List Sorted.
From Stdlib Require Import Floats.
From Stdlib Require Import DecimalString DecimalNat.
Import ListNotations.

(** ** JavaScript values *)

(** The values a field of an event record can hold, as far as [typeof]
    tells them apart. *)
Inductive JsValue : Type :=
| JsUndefined
| JsNull
| JsBoolean (b : bool)
| JsNumber (n : float)
| JsString (s : string).

Definition typeof (v : JsValue) : string :=
  match v with
  | JsUndefined => "undefined"
  | JsNull => "object"
  | JsBoolean _ => "boolean"
  | JsNumber _ => "number"
  | JsString _ => "string"
  end.

(** The number held by a field that has passed the [typeof] guard. *)
Definition number_of (v : JsValue) : float :=
  match v with
  | JsNumber n => n
  | _ => nan
  end.

(** [a >= b] of JavaScript: false as soon as one side is NaN. *)
Definition geb (a b : float) : bool := (b <=? a)%float.

(** ** Data shapes *)

(** [EventItem & MarkerBaseState]: an annotation event together with the
    bounding box of its marker.  [x] and [y] are tested with [typeof] by the
    code and are therefore arbitrary values; [width] and [height] are only
    used in arithmetic, where a missing field behaves as NaN. *)
Module Event.
Record t : Type := mk {
  type : string;
  value : string;
  x : JsValue;
  y : JsValue;
  width : float;
  height : float
}.
End Event.

(** [AnnotationWithBounds & { index: number }]: the copy [{ ...bounds, index }]
    pushed on [neumes] or [syllables]. *)
Module Annot.
Record t : Type := mk {
  type : string;
  value : string;
  x : float;
  y : float;
  width : float;
  height : float;
  index : nat
}.
End Annot.

Module Connection.
Record t : Type := mk {
  neumeId : nat;
  syllableId : nat;
  neumeX : float;
  neumeY : float;
  syllableX : float;
  syllableY : float
}.
End Connection.

(** ** The function, with its state passed explicitly *)

Section FindConnections.
Local Open Scope float_scope.

(** [{ ...bounds, index }] *)
Definition spread (bounds : Event.t) (index : nat) : Annot.t :=
  Annot.mk (Event.type bounds) (Event.value bounds)
           (number_of (Event.x bounds)) (number_of (Event.y bounds))
           (Event.width bounds) (Event.height bounds) index.

(** The guard of the [forEach] callback:
    [typeof bounds.x !== 'number' || typeof bounds.y !== 'number']. *)
Definition lacks_position (bounds : Event.t) : bool :=
  negb (String.eqb (typeof (Event.x bounds)) "number")
  || negb (String.eqb (typeof (Event.y bounds)) "number").

(** The body of the [forEach] callback, on the pair of arrays
    [(neumes, syllables)]. *)
Definition separate (arrays : list Annot.t * list Annot.t)
           (event : Event.t) (index : nat) : list Annot.t * list Annot.t :=
  let (neumes, syllables) := arrays in
  if lacks_position event then arrays
  else if String.eqb (Event.type event) "neume-type"
       then (neumes ++ [spread event index], syllables)
       else (neumes, syllables ++ [spread event index]).

(** [events.forEach((event, index) => ...)], started at [index]. *)
Fixpoint forEach (events : list Event.t) (index : nat)
         (arrays : list Annot.t * list Annot.t) : list Annot.t * list Annot.t :=
  match events with
  | [] => arrays
  | event :: rest => forEach rest (S index) (separate arrays event index)
  end.

(** The locals of the loops over [neumes] and [syllables]. *)
Definition neumeBottomY (neume : Annot.t) : float :=
  Annot.y neume + Annot.height neume.
Definition neumeCenterX (neume : Annot.t) : float :=
  Annot.x neume + Annot.width neume / 2.
Definition syllableTop (syllable : Annot.t) : float := Annot.y syllable.
Definition syllableCenterX (syllable : Annot.t) : float :=
  Annot.x syllable + Annot.width syllable / 2.
Definition syllableLeft (syllable : Annot.t) : float := Annot.x syllable.
Definition syllableRight (syllable : Annot.t) : float :=
  Annot.x syllable + Annot.width syllable.

Definition isBelow (neume syllable : Annot.t) : bool :=
  geb (syllableTop syllable) (Annot.y neume).
Definition isHorizontallyValid (neume syllable : Annot.t) : bool :=
  geb (neumeCenterX neume) (syllableLeft syllable - Annot.width syllable)
  && (neumeCenterX neume <=? syllableRight syllable + Annot.width syllable).

Definition verticalDist (neume syllable : Annot.t) : float :=
  syllableTop syllable - neumeBottomY neume.
Definition horizontalDist (neume syllable : Annot.t) : float :=
  abs (neumeCenterX neume - syllableCenterX syllable).
Definition maxVerticalGap (neume : Annot.t) : float :=
  Annot.height neume * 5.
Definition distance (neume syllable : Annot.t) : float :=
  verticalDist neume syllable * 2 + horizontalDist neume syllable.

(** The condition [verticalDist >= 0 && verticalDist < maxVerticalGap]. *)
Definition withinGap (neume syllable : Annot.t) : bool :=
  geb (verticalDist neume syllable) 0
  && (verticalDist neume syllable <? maxVerticalGap neume).

(** The pair [(bestSyllable, bestDistance)]; [None] is [null]. *)
Definition Best : Type := option Annot.t * float.

(** The body of [for (const syllable of syllables)]. *)
Definition consider (neume : Annot.t) (best : Best) (syllable : Annot.t) : Best :=
  if isBelow neume syllable && isHorizontallyValid neume syllable then
    if withinGap neume syllable then
      if distance neume syllable <? snd best
      then (Some syllable, distance neume syllable)
      else best
    else best
  else best.

(** The inner loop, from [bestSyllable = null], [bestDistance = Infinity]. *)
Definition closest (neume : Annot.t) (syllables : list Annot.t) : Best :=
  fold_left (consider neume) syllables (None, infinity).

(** The object pushed on [connections]. *)
Definition connect (neume bestSyllable : Annot.t) : Connection.t :=
  Connection.mk (Annot.index neume) (Annot.index bestSyllable)
                (Annot.x neume + Annot.width neume / 2)
                (Annot.y neume + Annot.height neume)
                (Annot.x bestSyllable + Annot.width bestSyllable / 2)
                (Annot.y bestSyllable).

(** The body of [for (const neume of neumes)]. *)
Definition link (syllables : list Annot.t) (connections : list Connection.t)
           (neume : Annot.t) : list Connection.t :=
  match fst (closest neume syllables) with
  | Some bestSyllable => connections ++ [connect neume bestSyllable]
  | None => connections
  end.

Definition findConnections (events : list Event.t) : list Connection.t :=
  let (neumes, syllables) := forEach events 0 ([], []) in
  fold_left (link syllables) neumes [].

End FindConnections.

(** The two arrays built by the first pass. *)
Definition neumes_of (events : list Event.t) : list Annot.t :=
  fst (forEach events 0 ([], [])).
Definition syllables_of (events : list Event.t) : list Annot.t :=
  snd (forEach events 0 ([], [])).

(** The syllables that pass the three tests for a neume. *)
Definition eligible (neume syllable : Annot.t) : bool :=
  isBelow neume syllable && isHorizontallyValid neume syllable
  && withinGap neume syllable.

(** What [(bestSyllable, bestDistance)] is after the syllables [seen]. *)
Definition best_of (neume : Annot.t) (seen : list Annot.t) (best : Best) : Prop :=
  match fst best with
  | None =>
      snd best = infinity
      /\ forall s, In s seen -> eligible neume s = true ->
                   (distance neume s <? infinity)%float = false
  | Some b =>
      snd best = distance neume b
      /\ eligible neume b = true
      /\ (distance neume b <? infinity)%float = true
      /\ exists before after,
           seen = before ++ b :: after
           /\ (forall s, In s before -> eligible neume s = true ->
                 (distance neume b <? distance neume s)%float = true
                 \/ is_nan (distance neume s) = true)
           /\ (forall s, In s after -> eligible neume s = true ->
                 (distance neume b <=? distance neume s)%float = true
                 \/ is_nan (distance neume s) = true)
  end.

(** What one round of the outer loop adds to [connections]. *)
Definition pick (syllables : list Annot.t) (neume : Annot.t) : list Connection.t :=
  match fst (closest neume syllables) with
  | Some bestSyllable => [connect neume bestSyllable]
  | None => []
  end.

(** The first pass described by recursion on the input, for the proofs. *)
Fixpoint collect (neume : bool) (events : list Event.t) (index : nat) : list Annot.t :=
  match events with
  | [] => []
  | event :: rest =>
      (if negb (lacks_position event)
          && Bool.eqb (String.eqb (Event.type event) "neume-type") neume
       then [spread event index] else [])
      ++ collect neume rest (S index)
  end.

(** The record at position [index] of the input, seen as an annotation. *)
Definition annotation_at (events : list Event.t) (index : nat) : option Annot.t :=
  match nth_error events index with
  | Some event =>
      if lacks_position event then None else Some (spread event index)
  | None => None
  end.

(** Building inputs: a record with a numeric box. *)
Definition box (type value : string) (x y width height : float) : Event.t :=
  Event.mk type value (JsNumber x) (JsNumber y) width height.

(** Two records with the same category and the same box; only the labels
    may differ. *)
Definition same_box (a b : Event.t) : Prop :=
  Event.type a = Event.type b
  /\ Event.x a = Event.x b /\ Event.y a = Event.y b
  /\ Event.width a = Event.width b /\ Event.height a = Event.height b.

(** A record and an annotation with the label erased. *)
Definition unlabel (event : Event.t) : Event.t :=
  Event.mk (Event.type event) "" (Event.x event) (Event.y event)
           (Event.width event) (Event.height event).
Definition unlabelled (a : Annot.t) : Annot.t :=
  Annot.mk (Annot.type a) "" (Annot.x a) (Annot.y a)
           (Annot.width a) (Annot.height a) (Annot.index a).

(** Scenario C read for every input: with one neume and two eligible
    syllables, the vertically closer syllable [s1] is the one connected. *)
Definition vertically_closer_wins (events : list Event.t) : Prop :=
  forall neume s1 s2,
    neumes_of events = [neume] ->
    syllables_of events = [s1; s2] \/ syllables_of events = [s2; s1] ->
    eligible neume s1 = true ->
    eligible neume s2 = true ->
    (verticalDist neume s1 <? verticalDist neume s2)%float = true ->
    findConnections events = [connect neume s1].

(** ** Inputs used as examples *)

(** Scenario A: a neume with one syllable right below it. *)
Definition scenario_A : list Event.t :=
  [box "neume-type" "punctum" 0 0 10 10;
   box "syllable" "Al" 0 15 10 5].

(** A neume above two syllables with the same box: equal distances. *)
Definition scenario_tie : list Event.t :=
  [box "syllable" "le" 0 15 10 5;
   box "neume-type" "punctum" 0 0 10 10;
   box "syllable" "lu" 0 15 10 5].

(** Scenario A with other labels on the same boxes. *)
Definition scenario_A_relabelled : list Event.t :=
  [box "neume-type" "virga" 0 0 10 10;
   box "syllable" "lu" 0 15 10 5].

(** Scenario B: the only syllable is far to the right of the neume. *)
Definition scenario_B : list Event.t :=
  [box "neume-type" "punctum" 0 0 10 10;
   box "syllable" "ia" 100 15 10 5].

(** Scenario C as the spec tells it: the syllable at index 1 is closer
    vertically (gap 2 against 10), the one at index 2 is centred under the
    neume; the scores are 8 and 20. *)
Definition scenario_C : list Event.t :=
  [box "neume-type" "clivis" 0 0 10 10;
   box "syllable" "Al" 4 12 10 5;
   box "syllable" "le" 0 20 10 5].

(** One neume and two eligible syllables: the wide syllable at index 1
    touches the neume's bottom edge (gap 0) but is centred 40 pixels to the
    right, the one at index 2 is one pixel lower and centred under the
    neume; the scores are 40 and 2. *)
Definition scenario_C_wide : list Event.t :=
  [box "neume-type" "clivis" 0 0 10 10;
   box "syllable" "Al" 30 10 30 5;
   box "syllable" "le" 0 11 10 5].

(** Scenario D: the syllable at index 1 lies above the neume. *)
Definition scenario_D : list Event.t :=
  [box "neume-type" "punctum" 0 20 10 10;
   box "syllable" "Al" 0 10 10 5;
   box "syllable" "le" 0 35 10 5].

(** A record without coordinates between a neume and a syllable. *)
Definition scenario_unplaced : list Event.t :=
  [box "neume-type" "punctum" 0 0 10 10;
   Event.mk "syllable" "Al" JsUndefined (JsString "15") 10 5;
   box "syllable" "le" 0 15 10 5].

(** A neume of height 0 with a syllable at the same vertical position. *)
Definition scenario_flat : list Event.t :=
  [box "neume-type" "punctum" 0 10 10 0;
   box "syllable" "Al" 0 10 10 5].

(** ** The function over an object store

    The same function with JavaScript's objects made explicit: arrays and
    records live in a store and are passed by reference, [push] updates an
    array in place, and an object literal allocates.  A run fails where
    JavaScript would throw a [TypeError] (a reference that is not the kind
    of object the code reads from it). *)
Module Heap.

Definition ref : Type := nat.

Inductive Obj : Type :=
| Record_ (event : Event.t)
| Annotated (a : Annot.t)
| Connected (c : Connection.t)
| Array (items : list ref).

Definition heap : Type := list Obj.

Definition M (A : Type) : Type := heap -> option (A * heap).

Definition ret {A} (a : A) : M A := fun h => Some (a, h).
Definition fail {A} : M A := fun _ => None.
Definition bind {A B} (m : M A) (k : A -> M B) : M B :=
  fun h => match m h with
           | Some (a, h') => k a h'
           | None => None
           end.

Notation "x <- m ;; k" := (bind m (fun x => k))
  (at level 61, m at next level, right associativity).
Notation "m ;;; k" := (bind m (fun _ => k))
  (at level 61, right associativity).

Fixpoint update (l : ref) (o : Obj) (h : heap) : heap :=
  match h, l with
  | [], _ => []
  | _ :: t, O => o :: t
  | a :: t, S l' => a :: update l' o t
  end.

(** An object or array literal. *)
Definition alloc (o : Obj) : M ref := fun h => Some (length h, h ++ [o]).
Definition load (l : ref) : M Obj :=
  fun h => match nth_error h l with
           | Some o => Some (o, h)
           | None => None
           end.
Definition store (l : ref) (o : Obj) : M unit :=
  fun h => if l <? length h then Some (tt, update l o h) else None.

Definition get_array (l : ref) : M (list ref) :=
  o <- load l ;; match o with Array items => ret items | _ => fail end.
Definition get_event (l : ref) : M Event.t :=
  o <- load l ;; match o with Record_ event => ret event | _ => fail end.
Definition get_annot (l : ref) : M Annot.t :=
  o <- load l ;; match o with Annotated a => ret a | _ => fail end.
Definition get_connection (l : ref) : M Connection.t :=
  o <- load l ;; match o with Connected c => ret c | _ => fail end.

(** [array.push(item)] *)
Definition push (array item : ref) : M unit :=
  items <- get_array array ;; store array (Array (items ++ [item])).

(** [items.forEach((item, index) => ...)] *)
Fixpoint forEach (items : list ref) (index : nat)
         (callback : ref -> nat -> M unit) : M unit :=
  match items with
  | [] => ret tt
  | item :: rest => callback item index ;;; forEach rest (S index) callback
  end.

(** [for (const item of items) ...], with the [let] variables of the
    enclosing block as [s]. *)
Fixpoint for_of {S} (items : list ref) (body : S -> ref -> M S) (s : S) : M S :=
  match items with
  | [] => ret s
  | item :: rest => s' <- body s item ;; for_of rest body s'
  end.

(** The body of the inner loop; [bestSyllable] holds a reference. *)
Definition consider (neume : Annot.t) (best : option ref * float)
           (item : ref) : M (option ref * float) :=
  syllable <- get_annot item ;;
  ret (if isBelow neume syllable && isHorizontallyValid neume syllable then
         if withinGap neume syllable then
           if (distance neume syllable <? snd best)%float
           then (Some item, distance neume syllable)
           else best
         else best
       else best).

(** The [forEach] callback; [neumes] and [syllables] are the references of
    the two local arrays. *)
Definition separate (neumes syllables : ref) (item : ref) (index : nat) : M unit :=
  bounds <- get_event item ;;
  if lacks_position bounds then ret tt
  else if String.eqb (Event.type bounds) "neume-type"
       then o <- alloc (Annotated (spread bounds index)) ;; push neumes o
       else o <- alloc (Annotated (spread bounds index)) ;; push syllables o.

(** The body of [for (const neume of neumes)]. *)
Definition link (connections syllables : ref) (_ : unit) (item : ref) : M unit :=
  neume <- get_annot item ;;
  ss <- get_array syllables ;;
  best <- for_of ss (consider neume) (None, infinity) ;;
  match fst best with
  | Some bestSyllable =>
      syllable <- get_annot bestSyllable ;;
      o <- alloc (Connected (connect neume syllable)) ;;
      push connections o
  | None => ret tt
  end.

Definition findConnections (events : ref) : M ref :=
  connections <- alloc (Array []) ;;
  neumes <- alloc (Array []) ;;
  syllables <- alloc (Array []) ;;
  items <- get_array events ;;
  forEach items 0 (separate neumes syllables) ;;;
  ns <- get_array neumes ;;
  for_of ns (link connections syllables) tt ;;;
  ret connections.

(** Reading an array of objects out of a store. *)
Fixpoint read_all {A} (get : ref -> M A) (items : list ref) (h : heap) : option (list A) :=
  match items with
  | [] => Some []
  | item :: rest =>
      match get item h, read_all get rest h with
      | Some (a, _), Some l => Some (a :: l)
      | _, _ => None
      end
  end.

Definition read_array {A} (get : ref -> M A) (array : ref) (h : heap) : option (list A) :=
  match get_array array h with
  | Some (items, _) => read_all get items h
  | None => None
  end.

Definition read_events : ref -> heap -> option (list Event.t) :=
  read_array get_event.
Definition read_connections : ref -> heap -> option (list Connection.t) :=
  read_array get_connection.

(** Every object of [h] is the same object in [h']. *)
Definition preserved (h h' : heap) : Prop :=
  forall l o, nth_error h l = Some o -> nth_error h' l = Some o.

Definition is_array (o : Obj) : bool :=
  match o with
  | Array _ => true
  | _ => false
  end.

(** The objects of [h] other than arrays are the same objects in [h']. *)
Definition stable (h h' : heap) : Prop :=
  forall l o, nth_error h l = Some o -> is_array o = false ->
              nth_error h' l = Some o.

(** The references [items] point to the objects [inj v], for [v] in [values]. *)
Definition holds {A} (inj : A -> Obj) (h : heap) (items : list ref)
           (values : list A) : Prop :=
  Forall2 (fun l v => nth_error h l = Some (inj v)) items values.

(** A store in the middle of a run started in [h0]: the objects of [h0] are
    untouched and the three local arrays, allocated right after [h0], hold
    [connections], [neumes] and [syllables]. *)
Record running (h0 h : heap) (connections : list Connection.t)
       (neumes syllables : list Annot.t) : Prop := {
  run_frame : preserved h0 h;
  run_connections :
    exists items, nth_error h (length h0) = Some (Array items)
                  /\ holds Connected h items connections;
  run_neumes :
    exists items, nth_error h (S (length h0)) = Some (Array items)
                  /\ holds Annotated h items neumes;
  run_syllables :
    exists items, nth_error h (S (S (length h0))) = Some (Array items)
                  /\ holds Annotated h items syllables
}.

(** The locals of the inner loop against those of the store-free loop. *)
Definition same_best (h : heap) (r : option ref * float) (best : Best) : Prop :=
  snd r = snd best
  /\ match fst r, fst best with
     | Some l, Some a => nth_error h l = Some (Annotated a)
     | None, None => True
     | _, _ => False
     end.

(** A store holding the records of [scenario_unplaced], with the input
    array at reference 3. *)
Definition store_unplaced : heap :=
  map Record_ scenario_unplaced ++ [Array [0; 1; 2]].

End Heap.

(** Two records that agree on everything [findConnections] reads: type,
    [x], [y], width and, for a neume, height. *)
Definition same_geometry (a b : Event.t) : Prop :=
  Event.type a = Event.type b
  /\ Event.x a = Event.x b /\ Event.y a = Event.y b
  /\ Event.width a = Event.width b
  /\ (Event.type a = "neume-type"%string -> Event.height a = Event.height b).

(** A record with the label erased and, unless it is a neume, the height
    set to 0; an annotation with label erased and height 0. *)
Definition without_syllable_height (event : Event.t) : Event.t :=
  Event.mk (Event.type event) "" (Event.x event) (Event.y event)
           (Event.width event)
           (if String.eqb (Event.type event) "neume-type"
            then Event.height event else 0%float).
Definition flat (a : Annot.t) : Annot.t :=
  Annot.mk (Annot.type a) "" (Annot.x a) (Annot.y a)
           (Annot.width a) 0%float (Annot.index a).

(** ** The annotation marker

    [AnnotationMarker] extends a marker class of the drawing toolkit; of
    a marker, the properties this class assigns are kept. *)
Module Marker.
Record FontSize : Type := mkFontSize {
  value : float;
  units : string;
  step : float
}.
Record t : Type := mk {
  text : string;
  fillColor : string;
  strokeColor : string;
  strokeWidth : float;
  fontSize : FontSize
}.
End Marker.

(** The constructor, applied to the marker built by [super(container)]. *)
Definition AnnotationMarker (base : Marker.t) : Marker.t :=
  Marker.mk (Marker.text base) (Marker.fillColor base)
            "black" 1%float
            (Marker.mkFontSize 8%float "pt" 0.5%float).

(** [setAnnotation(item)]; of [item] only [type] and [value] are read. *)
Definition setAnnotation (this : Marker.t) (item : Event.t) : Marker.t :=
  Marker.mk (Event.value item)
            (if String.eqb (Event.type item) "neume-type"
             then "blue" else "orange")
            (Marker.strokeColor this) (Marker.strokeWidth this)
            (Marker.fontSize this).

(** ** The event log

    The elements rendered by [EventLog], as a tree of [div]s and texts. *)
#[warnings="-register-all"]
Inductive Node : Type :=
| Text (s : string)
| Div (key : option string) (className : string) (children : list Node).

(** [String(i)] for an array index. *)
Definition decimal (i : nat) : string :=
  NilEmpty.string_of_uint (Nat.to_uint i).

(** The row of [events.map((e, i) => ...)] for one event. *)
Definition row (e : Event.t) (i : nat) : Node :=
  Div (Some ("event_" ++ decimal i)%string) ""
      [Text (Event.type e); Text ": "; Text (Event.value e)].

(** [events.map((e, i) => ...)], started at [i]. *)
Fixpoint rows (events : list Event.t) (i : nat) : list Node :=
  match events with
  | [] => []
  | e :: rest => row e i :: rows rest (S i)
  end.

Definition EventLog (events : list Event.t) : Node :=
  Div None "flex flex-col gap-2 overflow-x-auto"
      (if Nat.eqb (length events) 0
       then [Div None "text-gray-500" [Text "Awaiting events..."]]
       else rows events 0).

Definition children (n : Node) : list Node :=
  match n with
  | Text _ => []
  | Div _ _ l => l
  end.
Definition key (n : Node) : option string :=
  match n with
  | Text _ => None
  | Div k _ _ => k
  end.

Example findConnections_scenario_A :
  findConnections scenario_A = [Connection.mk 0 1 5 10 5 15].
Proof. vm_compute. reflexivity. Qed.

Example findConnections_scenario_B : findConnections scenario_B = [].
Proof. vm_compute. reflexivity. Qed.

Example findConnections_scenario_C :
  findConnections scenario_C = [Connection.mk 0 1 5 10 9 12].
Proof. vm_compute. reflexivity. Qed.

Example findConnections_scenario_D :
  findConnections scenario_D = [Connection.mk 0 2 5 30 5 35].
Proof. vm_compute. reflexivity. Qed.

Example findConnections_scenario_E : findConnections [] = [].
Proof. reflexivity. Qed.

Example findConnections_scenario_tie :
  findConnections scenario_tie = [Connection.mk 1 0 5 10 5 15].
Proof. vm_compute. reflexivity. Qed.

Example findConnections_store_unplaced :
  match Heap.findConnections 3 Heap.store_unplaced with
  | Some (r, h) => Heap.read_connections r h
  | None => None
  end = Some [Connection.mk 0 2 5 10 5 15].
Proof. vm_compute. reflexivity. Qed.

(** ** Order of binary64 values

    The comparisons of primitive floats are specified through [SFcompare];
    the facts below are what the loop invariants need from that order. *)

Ltac sf_destruct x :=
  let s := fresh "s" in
  destruct x as [s|s| |s ? ?]; try destruct s.

Ltac sf_order :=
  simpl;
  repeat match goal with
  | |- context [Z.compare ?a ?b] => destruct (Z.compare_spec a b); subst
  | |- context [Pos.compare_cont Eq ?a ?b] =>
      change (Pos.compare_cont Eq a b) with (Pos.compare a b);
      destruct (Pos.compare_spec a b); subst
  end;
  simpl; intros; try congruence; try lia; auto.

Section SpecOrder.

Lemma SFltb_trans x y z :
  SFltb x y = true -> SFltb y z = true -> SFltb x z = true.
Proof.
  unfold SFltb. sf_destruct x; sf_destruct y; sf_destruct z; sf_order.
Qed.

Lemma SFltb_leb_trans x y z :
  SFltb x y = true -> SFleb y z = true -> SFltb x z = true.
Proof.
  unfold SFltb, SFleb. sf_destruct x; sf_destruct y; sf_destruct z; sf_order.
Qed.

Lemma SFltb_below x y z :
  SFltb x y = true -> SFltb z y = false ->
  SFltb x z = true \/ z = S754_nan.
Proof.
  unfold SFltb. sf_destruct x; sf_destruct y; sf_destruct z; sf_order.
Qed.

Lemma SFleb_total x z :
  x <> S754_nan -> SFltb z x = false ->
  SFleb x z = true \/ z = S754_nan.
Proof.
  unfold SFltb, SFleb. sf_destruct x; sf_destruct z; sf_order.
Qed.

Lemma SFleb_not_ltb x y : SFleb x y = true -> SFltb y x = false.
Proof.
  unfold SFltb, SFleb. sf_destruct x; sf_destruct y; sf_order.
Qed.

Lemma SFltb_leb x y : SFltb x y = true -> SFleb x y = true.
Proof.
  unfold SFltb, SFleb. sf_destruct x; sf_destruct y; sf_order.
Qed.

Lemma SFltb_infinity x y :
  SFltb x y = true -> SFltb x (S754_infinity false) = true.
Proof.
  unfold SFltb. sf_destruct x; sf_destruct y; sf_order.
Qed.

Lemma SFeqb_refl x : x <> S754_nan -> SFeqb x x = true.
Proof.
  unfold SFeqb. sf_destruct x; simpl; try congruence;
    rewrite Z.compare_refl, Pos.compare_cont_refl; reflexivity.
Qed.

Lemma SFleb_refl x : x <> S754_nan -> SFleb x x = true.
Proof.
  unfold SFleb. sf_destruct x; simpl; try congruence;
    rewrite Z.compare_refl, Pos.compare_cont_refl; reflexivity.
Qed.

Lemma SFeqb_zero x :
  SFeqb x (S754_zero false) = true -> exists s, x = S754_zero s.
Proof.
  unfold SFeqb. sf_destruct x; simpl; try congruence; eauto.
Qed.

Lemma SFleb_zero_not_ltb s x :
  SFleb (S754_zero false) x = true -> SFltb x (S754_zero s) = false.
Proof.
  unfold SFltb, SFleb. sf_destruct x; destruct s; sf_order.
Qed.

End SpecOrder.

Section FloatOrder.
Local Open Scope float_scope.

Lemma is_nan_spec a : is_nan a = true <-> Prim2SF a = S754_nan.
Proof.
  unfold is_nan. rewrite eqb_spec. split.
  - intros H. destruct (Prim2SF a) eqn:E; auto;
      rewrite SFeqb_refl in H by congruence; discriminate.
  - intros ->. reflexivity.
Qed.

Lemma is_nan_false a : is_nan a = false <-> Prim2SF a <> S754_nan.
Proof.
  rewrite <- is_nan_spec. destruct (is_nan a); split; congruence.
Qed.

Lemma ltb_trans a b c : (a <? b) = true -> (b <? c) = true -> (a <? c) = true.
Proof. rewrite !ltb_spec. apply SFltb_trans. Qed.

Lemma ltb_leb_trans a b c :
  (a <? b) = true -> (b <=? c) = true -> (a <? c) = true.
Proof. rewrite !ltb_spec, leb_spec. apply SFltb_leb_trans. Qed.

Lemma ltb_below a b c :
  (a <? b) = true -> (c <? b) = false ->
  (a <? c) = true \/ is_nan c = true.
Proof.
  rewrite !ltb_spec, is_nan_spec. apply SFltb_below.
Qed.

Lemma leb_total a c :
  is_nan a = false -> (c <? a) = false ->
  (a <=? c) = true \/ is_nan c = true.
Proof.
  rewrite is_nan_false, ltb_spec, leb_spec, is_nan_spec. apply SFleb_total.
Qed.

Lemma leb_refl a : is_nan a = false -> (a <=? a) = true.
Proof. rewrite is_nan_false, leb_spec. apply SFleb_refl. Qed.

Lemma leb_not_ltb a b : (a <=? b) = true -> (b <? a) = false.
Proof. rewrite ltb_spec, leb_spec. apply SFleb_not_ltb. Qed.

Lemma ltb_leb a b : (a <? b) = true -> (a <=? b) = true.
Proof. rewrite ltb_spec, leb_spec. apply SFltb_leb. Qed.

Lemma ltb_asym a b : (a <? b) = true -> (b <? a) = false.
Proof. intros H. apply leb_not_ltb, ltb_leb, H. Qed.

Lemma ltb_infinity a b : (a <? b) = true -> (a <? infinity) = true.
Proof.
  rewrite !ltb_spec. change (Prim2SF infinity) with (S754_infinity false).
  apply SFltb_infinity.
Qed.

Lemma ltb_not_nan a b : (a <? b) = true -> is_nan a = false.
Proof.
  rewrite ltb_spec, is_nan_false. intros H E. rewrite E in H. discriminate.
Qed.

(** A float equal to zero is one of the two zeros. *)
Lemma eqb_zero a : (a =? 0) = true -> a = 0 \/ a = (-0).
Proof.
  rewrite eqb_spec. change (Prim2SF 0) with (S754_zero false).
  intros H. apply SFeqb_zero in H. destruct H as [s H].
  rewrite <- (SF2Prim_Prim2SF a), H. destruct s; [right | left]; reflexivity.
Qed.

(** No value is both at least [0] and below [h * 5] when [h] is zero. *)
Lemma zero_gap h v :
  (h =? 0) = true -> geb v 0 = true -> (v <? h * 5) = false.
Proof.
  unfold geb. intros Hh Hv. rewrite leb_spec in Hv. rewrite ltb_spec.
  change (Prim2SF 0) with (S754_zero false) in Hv.
  destruct (eqb_zero _ Hh) as [-> | ->].
  - change (Prim2SF (0 * 5)) with (S754_zero false).
    apply SFleb_zero_not_ltb, Hv.
  - change (Prim2SF (-0 * 5)) with (S754_zero true).
    apply SFleb_zero_not_ltb, Hv.
Qed.

End FloatOrder.

(** ** The first pass *)

Section FirstPass.

Lemma forEach_collect events : forall index neumes syllables,
  forEach events index (neumes, syllables)
  = (neumes ++ collect true events index,
     syllables ++ collect false events index).
Proof.
  induction events as [|event rest IH]; intros index neumes syllables; simpl.
  - now rewrite !app_nil_r.
  - destruct (lacks_position event); simpl.
    + apply IH.
    + destruct (String.eqb (Event.type event) "neume-type"); simpl;
        rewrite IH, <- app_assoc; reflexivity.
Qed.

Lemma neumes_of_collect events : neumes_of events = collect true events 0.
Proof. unfold neumes_of. now rewrite forEach_collect. Qed.

Lemma syllables_of_collect events : syllables_of events = collect false events 0.
Proof. unfold syllables_of. now rewrite forEach_collect. Qed.

Lemma In_collect neume events : forall index a,
  In a (collect neume events index) ->
  exists i event,
    Annot.index a = index + i /\ nth_error events i = Some event
    /\ lacks_position event = false
    /\ String.eqb (Event.type event) "neume-type" = neume
    /\ a = spread event (index + i).
Proof.
  induction events as [|event rest IH]; intros index a; simpl; [tauto|].
  rewrite in_app_iff. intros [H | H].
  - destruct (lacks_position event) eqn:Hpos; simpl in H; [tauto|].
    destruct (Bool.eqb _ neume) eqn:Hty; simpl in H; [|tauto].
    destruct H as [<- | []]. exists 0, event. rewrite Nat.add_0_r.
    apply Bool.eqb_prop in Hty. simpl. auto.
  - destruct (IH _ _ H) as (i & e & Hi & Hn & Hp & Ht & Ha).
    exists (S i), e. rewrite Nat.add_succ_r. simpl. auto.
Qed.

Lemma collect_In neume events : forall index i event,
  nth_error events i = Some event ->
  lacks_position event = false ->
  String.eqb (Event.type event) "neume-type" = neume ->
  In (spread event (index + i)) (collect neume events index).
Proof.
  induction events as [|e rest IH]; intros index [|i] event Hn Hp Ht;
    simpl in Hn; try discriminate; simpl; rewrite in_app_iff.
  - injection Hn as ->. left. rewrite Hp, Ht, Bool.eqb_reflx, Nat.add_0_r.
    simpl. auto.
  - right. rewrite Nat.add_succ_r. apply (IH (S index)); assumption.
Qed.

Lemma collect_sorted neume events : forall index,
  StronglySorted lt (map Annot.index (collect neume events index)).
Proof.
  induction events as [|event rest IH]; intros index; simpl; [constructor|].
  destruct (negb (lacks_position event) && _); simpl; [|apply IH].
  constructor; [apply IH|].
  rewrite Forall_forall. intros j Hj. apply in_map_iff in Hj.
  destruct Hj as (a & <- & Ha). apply In_collect in Ha.
  destruct Ha as (i & _ & -> & _). lia.
Qed.

Lemma collect_annotation_at neume events a :
  In a (collect neume events 0) ->
  annotation_at events (Annot.index a) = Some a.
Proof.
  intros H. apply In_collect in H.
  destruct H as (i & event & Hi & Hn & Hp & _ & Ha). simpl in *.
  unfold annotation_at. rewrite Hi, Hn, Hp. congruence.
Qed.

Lemma collect_is_neume neume events a :
  In a (collect neume events 0) ->
  String.eqb (Annot.type a) "neume-type" = neume.
Proof.
  intros H. apply In_collect in H.
  destruct H as (i & event & _ & _ & _ & Ht & ->). exact Ht.
Qed.

End FirstPass.

(** ** The inner loop *)

Section InnerLoop.
Local Open Scope float_scope.
Variable neume : Annot.t.

Lemma consider_eligible best s :
  consider neume best s
  = if eligible neume s && (distance neume s <? snd best)
    then (Some s, distance neume s) else best.
Proof.
  unfold consider, eligible.
  destruct (isBelow neume s && isHorizontallyValid neume s);
    destruct (withinGap neume s); reflexivity.
Qed.

Lemma best_of_step seen best s :
  best_of neume seen best -> best_of neume (seen ++ [s]) (consider neume best s).
Proof.
  intros Hinv. rewrite consider_eligible.
  destruct (eligible neume s) eqn:Hel; simpl;
    [destruct (distance neume s <? snd best) eqn:Hlt|].
  - (* a new best syllable *)
    unfold best_of; simpl. repeat split; auto.
    + eapply ltb_infinity; eauto.
    + exists seen, []. repeat split; [|simpl; tauto].
      intros s' Hin Hs'. unfold best_of in Hinv.
      destruct (fst best) as [b|].
      * destruct Hinv as (Hd & _ & _ & before & after & -> & Hb & Ha).
        rewrite Hd in Hlt. apply in_app_iff in Hin.
        destruct Hin as [Hin | [<- | Hin]].
        -- destruct (Hb _ Hin Hs'); auto. left. eapply ltb_trans; eauto.
        -- auto.
        -- destruct (Ha _ Hin Hs'); auto. left. eapply ltb_leb_trans; eauto.
      * destruct Hinv as (Hd & Hnone). rewrite Hd in Hlt.
        eapply ltb_below; eauto.
  - (* eligible, but not closer *)
    unfold best_of in *. destruct (fst best) as [b|].
    + destruct Hinv as (Hd & Hb & Hfin & before & after & -> & Hbef & Haft).
      repeat split; auto. exists before, (after ++ [s]).
      rewrite <- app_assoc. repeat split; auto.
      intros s' Hin Hs'. apply in_app_iff in Hin. destruct Hin as [Hin | [<- | []]].
      * auto.
      * rewrite Hd in Hlt. apply leb_total; auto. eapply ltb_not_nan; eauto.
    + destruct Hinv as (Hd & Hnone). split; auto.
      intros s' Hin Hs'. apply in_app_iff in Hin. destruct Hin as [Hin | [<- | []]].
      * auto.
      * now rewrite Hd in Hlt.
  - (* not eligible *)
    unfold best_of in *. destruct (fst best) as [b|].
    + destruct Hinv as (Hd & Hb & Hfin & before & after & -> & Hbef & Haft).
      repeat split; auto. exists before, (after ++ [s]).
      rewrite <- app_assoc. repeat split; auto.
      intros s' Hin Hs'. apply in_app_iff in Hin. destruct Hin as [Hin | [<- | []]].
      * auto.
      * congruence.
    + destruct Hinv as (Hd & Hnone). split; auto.
      intros s' Hin Hs'. apply in_app_iff in Hin. destruct Hin as [Hin | [<- | []]].
      * auto.
      * congruence.
Qed.

Lemma best_of_fold rest : forall seen best,
  best_of neume seen best ->
  best_of neume (seen ++ rest) (fold_left (consider neume) rest best).
Proof.
  induction rest as [|s rest IH]; intros seen best H; simpl.
  - now rewrite app_nil_r.
  - replace (seen ++ s :: rest) with ((seen ++ [s]) ++ rest)
      by now rewrite <- app_assoc.
    apply IH, best_of_step, H.
Qed.

Lemma best_of_closest syllables :
  best_of neume syllables (closest neume syllables).
Proof.
  apply (best_of_fold syllables [] (None, infinity)).
  unfold best_of; simpl. split; [reflexivity | tauto].
Qed.

End InnerLoop.

(** ** The outer loop *)

Section OuterLoop.
Local Open Scope float_scope.

Lemma fold_link syllables neumes : forall connections,
  fold_left (link syllables) neumes connections
  = connections ++ flat_map (pick syllables) neumes.
Proof.
  induction neumes as [|neume rest IH]; intros connections; simpl.
  - now rewrite app_nil_r.
  - rewrite IH. unfold link, pick.
    destruct (fst (closest neume syllables)); simpl.
    + now rewrite <- app_assoc.
    + reflexivity.
Qed.

Lemma findConnections_pick events :
  findConnections events
  = flat_map (pick (syllables_of events)) (neumes_of events).
Proof.
  unfold findConnections, syllables_of, neumes_of.
  destruct (forEach events 0 ([], [])) as [neumes syllables]; simpl.
  apply fold_link.
Qed.

Lemma In_findConnections events c :
  In c (findConnections events) <->
  exists neume syllable,
    In neume (neumes_of events)
    /\ fst (closest neume (syllables_of events)) = Some syllable
    /\ c = connect neume syllable.
Proof.
  rewrite findConnections_pick, in_flat_map. unfold pick. split.
  - intros (neume & Hin & Hc). exists neume.
    destruct (fst (closest neume (syllables_of events))) as [s|]; simpl in Hc.
    + destruct Hc as [<- | []]. eauto.
    + tauto.
  - intros (neume & s & Hin & Hb & ->). exists neume. rewrite Hb. simpl. auto.
Qed.

(** Every connection links a record collected as a neume to a record
    collected as a syllable, and that syllable is the first closest one. *)
Lemma emitted events c :
  In c (findConnections events) ->
  exists neume syllable before after,
    c = connect neume syllable
    /\ In neume (neumes_of events)
    /\ syllables_of events = before ++ syllable :: after
    /\ annotation_at events (Connection.neumeId c) = Some neume
    /\ annotation_at events (Connection.syllableId c) = Some syllable
    /\ eligible neume syllable = true
    /\ (forall s, In s before -> eligible neume s = true ->
          (distance neume syllable <? distance neume s) = true
          \/ is_nan (distance neume s) = true)
    /\ (forall s, In s after -> eligible neume s = true ->
          (distance neume syllable <=? distance neume s) = true
          \/ is_nan (distance neume s) = true).
Proof.
  intros H. apply In_findConnections in H.
  destruct H as (neume & syllable & Hn & Hbest & ->).
  pose proof (best_of_closest neume (syllables_of events)) as Hinv.
  unfold best_of in Hinv. rewrite Hbest in Hinv.
  destruct Hinv as (_ & Hel & _ & before & after & Hsplit & Hbefore & Hafter).
  exists neume, syllable, before, after. simpl.
  repeat split; auto.
  - rewrite neumes_of_collect in Hn. eapply collect_annotation_at; eauto.
  - assert (Hs : In syllable (syllables_of events))
      by (rewrite Hsplit; apply in_elt).
    rewrite syllables_of_collect in Hs. eapply collect_annotation_at; eauto.
Qed.

Lemma eligible_tests neume syllable :
  eligible neume syllable = true ->
  isBelow neume syllable = true
  /\ isHorizontallyValid neume syllable = true
  /\ withinGap neume syllable = true.
Proof.
  unfold eligible. rewrite !andb_true_iff. tauto.
Qed.

Lemma neumeIds_sorted syllables neumes :
  StronglySorted lt (map Annot.index neumes) ->
  StronglySorted lt (map Connection.neumeId (flat_map (pick syllables) neumes))
  /\ forall c, In c (flat_map (pick syllables) neumes) ->
               In (Connection.neumeId c) (map Annot.index neumes).
Proof.
  induction neumes as [|neume rest IH]; simpl; intros Hs.
  - split; [constructor | tauto].
  - inversion Hs as [|? ? Hrest Hall]; subst.
    destruct (IH Hrest) as [IHs IHin]. unfold pick at 1 3.
    destruct (fst (closest neume syllables)) as [s|]; simpl.
    + split.
      * constructor; auto. rewrite Forall_forall in *.
        intros j Hj. apply in_map_iff in Hj. destruct Hj as (c & <- & Hc).
        apply Hall, IHin, Hc.
      * intros c [<- | Hc]; simpl; auto.
    + split; auto.
Qed.

End OuterLoop.

(** ** Runs over the object store *)

Section Store.

Lemma length_update l o h : length (Heap.update l o h) = length h.
Proof.
  revert l. induction h as [|a t IH]; intros [|l]; simpl; auto.
Qed.

Lemma nth_error_update_eq l o h :
  l < length h -> nth_error (Heap.update l o h) l = Some o.
Proof.
  revert l. induction h as [|a t IH]; intros [|l]; simpl; intros H;
    try lia; auto. apply IH. lia.
Qed.

Lemma nth_error_update_ne l l' o h :
  l <> l' -> nth_error (Heap.update l o h) l' = nth_error h l'.
Proof.
  revert l l'. induction h as [|a t IH]; intros [|l] [|l']; simpl; intros H;
    try congruence. apply IH. congruence.
Qed.

Lemma nth_error_alloc (h : Heap.heap) o l v :
  nth_error h l = Some v -> nth_error (h ++ [o]) l = Some v.
Proof.
  intros H. rewrite nth_error_app1; auto.
  apply nth_error_Some. congruence.
Qed.

Lemma nth_error_fresh h (o : Heap.Obj) : nth_error (h ++ [o]) (length h) = Some o.
Proof.
  rewrite nth_error_app2, Nat.sub_diag; auto.
Qed.

Lemma get_array_run h l items :
  nth_error h l = Some (Heap.Array items) ->
  Heap.get_array l h = Some (items, h).
Proof.
  intros H. unfold Heap.get_array, Heap.bind, Heap.load. now rewrite H.
Qed.

Lemma get_event_iff h l event h' :
  Heap.get_event l h = Some (event, h')
  <-> nth_error h l = Some (Heap.Record_ event) /\ h' = h.
Proof.
  unfold Heap.get_event, Heap.bind, Heap.load, Heap.ret, Heap.fail.
  destruct (nth_error h l) as [[]|]; split; intros H;
    try discriminate; try (destruct H; discriminate).
  - injection H as -> ->. auto.
  - destruct H as [H ->]. congruence.
Qed.

Lemma get_annot_iff h l a h' :
  Heap.get_annot l h = Some (a, h')
  <-> nth_error h l = Some (Heap.Annotated a) /\ h' = h.
Proof.
  unfold Heap.get_annot, Heap.bind, Heap.load, Heap.ret, Heap.fail.
  destruct (nth_error h l) as [[]|]; split; intros H;
    try discriminate; try (destruct H; discriminate).
  - injection H as -> ->. auto.
  - destruct H as [H ->]. congruence.
Qed.

Lemma get_connection_iff h l c h' :
  Heap.get_connection l h = Some (c, h')
  <-> nth_error h l = Some (Heap.Connected c) /\ h' = h.
Proof.
  unfold Heap.get_connection, Heap.bind, Heap.load, Heap.ret, Heap.fail.
  destruct (nth_error h l) as [[]|]; split; intros H;
    try discriminate; try (destruct H; discriminate).
  - injection H as -> ->. auto.
  - destruct H as [H ->]. congruence.
Qed.

Lemma push_run h l items item :
  nth_error h l = Some (Heap.Array items) ->
  Heap.push l item h
  = Some (tt, Heap.update l (Heap.Array (items ++ [item])) h).
Proof.
  intros H. unfold Heap.push, Heap.bind. rewrite (get_array_run _ _ _ H).
  unfold Heap.store.
  assert (Hl : l < length h) by (apply nth_error_Some; congruence).
  apply Nat.ltb_lt in Hl. now rewrite Hl.
Qed.

(** Reading an array of objects, in terms of [holds]. *)
Section Reading.
Variables (A : Type) (get : Heap.ref -> Heap.M A) (inj : A -> Heap.Obj).
Hypothesis get_iff : forall h l v h',
  get l h = Some (v, h') <-> nth_error h l = Some (inj v) /\ h' = h.

Lemma read_all_holds h items values :
  Heap.read_all get items h = Some values <-> Heap.holds inj h items values.
Proof.
  unfold Heap.holds. revert values.
  induction items as [|item rest IH]; intros values; simpl.
  - split; intros H.
    + injection H as <-. constructor.
    + inversion H. reflexivity.
  - destruct (get item h) as [[v h']|] eqn:Hg.
    + apply get_iff in Hg. destruct Hg as [Hg ->].
      destruct (Heap.read_all get rest h) as [vs|] eqn:Hr.
      * split; intros H.
        -- injection H as <-. constructor; [assumption | now apply IH].
        -- inversion H as [|? v' ? vs' Hv Hvs]; subst.
           apply IH in Hvs.
           assert (Hg' : get item h = Some (v', h)) by now apply get_iff.
           assert (Hg'' : get item h = Some (v, h)) by now apply get_iff.
           congruence.
      * split; intros H; [discriminate|].
        inversion H as [|? v' ? vs' Hv Hvs]; subst.
        apply IH in Hvs. discriminate.
    + split; intros H; [discriminate|].
      inversion H as [|? v' ? vs' Hv Hvs]; subst.
      assert (Hg' : get item h = Some (v', h)) by now apply get_iff.
      congruence.
Qed.

Lemma read_array_holds h array values :
  Heap.read_array get array h = Some values
  <-> exists items, nth_error h array = Some (Heap.Array items)
                    /\ Heap.holds inj h items values.
Proof.
  unfold Heap.read_array, Heap.get_array, Heap.bind, Heap.load, Heap.ret, Heap.fail.
  destruct (nth_error h array) as [[| | |items]|]; try (split; [discriminate|]);
    try (intros (items' & H & _); discriminate).
  rewrite read_all_holds. split.
  - eauto.
  - intros (items' & H & Hh). congruence.
Qed.

End Reading.

Lemma holds_preserved A (inj : A -> Heap.Obj) h h' items values :
  Heap.preserved h h' -> Heap.holds inj h items values ->
  Heap.holds inj h' items values.
Proof.
  intros Hp H. unfold Heap.holds in *.
  eapply Forall2_impl; [|exact H]. intros l v Hl. apply Hp, Hl.
Qed.

Lemma holds_stable A (inj : A -> Heap.Obj) h h' items values :
  (forall v, Heap.is_array (inj v) = false) ->
  Heap.stable h h' -> Heap.holds inj h items values ->
  Heap.holds inj h' items values.
Proof.
  intros Hk Hs H. unfold Heap.holds in *.
  eapply Forall2_impl; [|exact H]. intros l v Hl. apply Hs; auto.
Qed.

Lemma holds_snoc A (inj : A -> Heap.Obj) h items values l v :
  Heap.holds inj h items values -> nth_error h l = Some (inj v) ->
  Heap.holds inj h (items ++ [l]) (values ++ [v]).
Proof.
  intros H Hl. apply Forall2_app; [exact H|]. constructor; auto.
Qed.

Lemma stable_refl h : Heap.stable h h.
Proof. intros l o H _. exact H. Qed.

Lemma stable_trans h1 h2 h3 :
  Heap.stable h1 h2 -> Heap.stable h2 h3 -> Heap.stable h1 h3.
Proof. intros H12 H23 l o H Ho. apply H23; auto. Qed.

Lemma stable_alloc h o : Heap.stable h (h ++ [o]).
Proof. intros l v H _. now apply nth_error_alloc. Qed.

Lemma stable_update h l items items' :
  nth_error h l = Some (Heap.Array items) ->
  Heap.stable h (Heap.update l (Heap.Array items') h).
Proof.
  intros Hl l' o H Ho. rewrite nth_error_update_ne; auto.
  intros ->. rewrite Hl in H. injection H as <-. discriminate.
Qed.

End Store.

(** ** The run of [Heap.findConnections] *)

Section Run.
Variable h0 : Heap.heap.

Lemma preserved_alloc h o : Heap.preserved h (h ++ [o]).
Proof. intros l v H. now apply nth_error_alloc. Qed.

Lemma preserved_update h l o :
  Heap.preserved h0 h -> length h0 <= l ->
  Heap.preserved h0 (Heap.update l o h).
Proof.
  intros Hp Hl l' v H. rewrite nth_error_update_ne; auto.
  assert (l' < length h0) by (apply nth_error_Some; congruence). lia.
Qed.

Lemma running_start :
  Heap.running h0
    (((h0 ++ [Heap.Array []]) ++ [Heap.Array []]) ++ [Heap.Array []])
    [] [] [].
Proof.
  split.
  - intros l o H. now do 3 apply nth_error_alloc.
  - exists []. split; [|constructor].
    do 2 apply nth_error_alloc. apply nth_error_fresh.
  - exists []. split; [|constructor].
    apply nth_error_alloc.
    replace (S (length h0)) with (length (h0 ++ [Heap.Array []]))
      by (rewrite length_app; simpl; lia).
    apply nth_error_fresh.
  - exists []. split; [|constructor].
    replace (S (S (length h0)))
      with (length ((h0 ++ [Heap.Array []]) ++ [Heap.Array []]))
      by (rewrite !length_app; simpl; lia).
    apply nth_error_fresh.
Qed.

Lemma running_alloc h cs ns ss o :
  Heap.running h0 h cs ns ss -> Heap.running h0 (h ++ [o]) cs ns ss.
Proof.
  intros [Hf (ci & Hc & Hcs) (ni & Hn & Hns) (si & Hs & Hss)].
  pose proof (preserved_alloc h o) as Hp.
  split.
  - intros l v H. apply Hp, Hf, H.
  - exists ci. split; [now apply Hp | eapply holds_preserved; eauto].
  - exists ni. split; [now apply Hp | eapply holds_preserved; eauto].
  - exists si. split; [now apply Hp | eapply holds_preserved; eauto].
Qed.

(** The three [push]es differ by the array they extend. *)
Ltac other_array Hst :=
  match goal with
  | H : nth_error ?h ?l = Some (Heap.Array ?items)
    |- exists _, nth_error (Heap.update ?l' _ ?h) ?l = _ /\ _ =>
      exists items; split;
      [ rewrite nth_error_update_ne by lia; exact H
      | eapply holds_stable; [reflexivity | exact Hst | eassumption] ]
  end.

Ltac this_array Hst l :=
  match goal with
  | H : nth_error ?h ?a = Some (Heap.Array ?items)
    |- exists _, nth_error (Heap.update ?a _ ?h) ?a = _ /\ _ =>
      exists (items ++ [l]); split;
      [ apply nth_error_update_eq; apply nth_error_Some; congruence
      | apply holds_snoc;
        [ eapply holds_stable; [reflexivity | exact Hst | eassumption]
        | apply Hst; [assumption | reflexivity] ] ]
  end.

Lemma running_push_connection h cs ns ss items l c :
  Heap.running h0 h cs ns ss ->
  nth_error h (length h0) = Some (Heap.Array items) ->
  nth_error h l = Some (Heap.Connected c) ->
  Heap.running h0
    (Heap.update (length h0) (Heap.Array (items ++ [l])) h)
    (cs ++ [c]) ns ss.
Proof.
  intros [Hf (ci & Hc & Hcs) (ni & Hn & Hns) (si & Hs & Hss)] Ha Hl.
  pose proof (stable_update h _ _ (items ++ [l]) Ha) as Hst.
  assert (ci = items) by congruence. subst ci.
  split.
  - apply preserved_update; auto.
  - this_array Hst l.
  - other_array Hst.
  - other_array Hst.
Qed.

Lemma running_push_neume h cs ns ss items l a :
  Heap.running h0 h cs ns ss ->
  nth_error h (S (length h0)) = Some (Heap.Array items) ->
  nth_error h l = Some (Heap.Annotated a) ->
  Heap.running h0
    (Heap.update (S (length h0)) (Heap.Array (items ++ [l])) h)
    cs (ns ++ [a]) ss.
Proof.
  intros [Hf (ci & Hc & Hcs) (ni & Hn & Hns) (si & Hs & Hss)] Ha Hl.
  pose proof (stable_update h _ _ (items ++ [l]) Ha) as Hst.
  assert (ni = items) by congruence. subst ni.
  split.
  - apply preserved_update; auto.
  - other_array Hst.
  - this_array Hst l.
  - other_array Hst.
Qed.

Lemma running_push_syllable h cs ns ss items l a :
  Heap.running h0 h cs ns ss ->
  nth_error h (S (S (length h0))) = Some (Heap.Array items) ->
  nth_error h l = Some (Heap.Annotated a) ->
  Heap.running h0
    (Heap.update (S (S (length h0))) (Heap.Array (items ++ [l])) h)
    cs ns (ss ++ [a]).
Proof.
  intros [Hf (ci & Hc & Hcs) (ni & Hn & Hns) (si & Hs & Hss)] Ha Hl.
  pose proof (stable_update h _ _ (items ++ [l]) Ha) as Hst.
  assert (si = items) by congruence. subst si.
  split.
  - apply preserved_update; auto.
  - other_array Hst.
  - other_array Hst.
  - this_array Hst l.
Qed.

End Run.

Section Loops.
Variable h0 : Heap.heap.

Lemma get_event_run h l event :
  nth_error h l = Some (Heap.Record_ event) ->
  Heap.get_event l h = Some (event, h).
Proof. intros H. now apply get_event_iff. Qed.

Lemma get_annot_run h l a :
  nth_error h l = Some (Heap.Annotated a) ->
  Heap.get_annot l h = Some (a, h).
Proof. intros H. now apply get_annot_iff. Qed.

Lemma separate_run h cs ns ss item event index :
  Heap.running h0 h cs ns ss ->
  nth_error h item = Some (Heap.Record_ event) ->
  exists h',
    Heap.separate (S (length h0)) (S (S (length h0))) item index h
    = Some (tt, h')
    /\ Heap.stable h h'
    /\ Heap.running h0 h'
         cs (fst (separate (ns, ss) event index))
         (snd (separate (ns, ss) event index)).
Proof.
  intros Hrun Hitem. unfold Heap.separate, Heap.bind, separate.
  rewrite (get_event_run _ _ _ Hitem).
  destruct (lacks_position event).
  - exists h. split; [reflexivity|]. split; [apply stable_refl | exact Hrun].
  - set (a := spread event index).
    pose proof (running_alloc h0 h cs ns ss (Heap.Annotated a) Hrun) as Hrun'.
    pose proof (nth_error_fresh h (Heap.Annotated a)) as Hnew.
    destruct (String.eqb (Event.type event) "neume-type"); unfold Heap.alloc.
    + destruct (Heap.run_neumes _ _ _ _ _ Hrun') as (items & Harr & _).
      rewrite (push_run _ _ _ (length h) Harr). eexists. split; [reflexivity|].
      split.
      * eapply stable_trans; [apply stable_alloc | eapply stable_update; eauto].
      * simpl. eapply running_push_neume; eauto.
    + destruct (Heap.run_syllables _ _ _ _ _ Hrun') as (items & Harr & _).
      rewrite (push_run _ _ _ (length h) Harr). eexists. split; [reflexivity|].
      split.
      * eapply stable_trans; [apply stable_alloc | eapply stable_update; eauto].
      * simpl. eapply running_push_syllable; eauto.
Qed.

Lemma forEach_run items : forall events index h cs ns ss,
  Heap.holds Heap.Record_ h items events ->
  Heap.running h0 h cs ns ss ->
  exists h',
    Heap.forEach items index
      (Heap.separate (S (length h0)) (S (S (length h0)))) h
    = Some (tt, h')
    /\ Heap.stable h h'
    /\ Heap.running h0 h'
         cs (fst (forEach events index (ns, ss)))
         (snd (forEach events index (ns, ss))).
Proof.
  induction items as [|item rest IH]; intros events index h cs ns ss Hev Hrun;
    inversion Hev as [|? event ? events' Hitem Hrest]; subst;
    cbn [Heap.forEach forEach].
  - exists h. split; [reflexivity|]. split; [apply stable_refl | exact Hrun].
  - destruct (separate_run h cs ns ss item event index Hrun Hitem)
      as (h1 & Hstep & Hst1 & Hrun1).
    unfold Heap.bind. rewrite Hstep.
    destruct (separate (ns, ss) event index) as [ns1 ss1] eqn:Hsep.
    simpl in Hrun1.
    destruct (IH events' (S index) h1 cs ns1 ss1) as (h2 & Hloop & Hst2 & Hrun2).
    + eapply holds_stable; eauto.
    + exact Hrun1.
    + exists h2. split; [exact Hloop|]. split; [eapply stable_trans; eauto | exact Hrun2].
Qed.

Lemma consider_run neume h item syllable r best :
  nth_error h item = Some (Heap.Annotated syllable) ->
  Heap.same_best h r best ->
  exists r',
    Heap.consider neume r item h = Some (r', h)
    /\ Heap.same_best h r' (consider neume best syllable).
Proof.
  intros Hitem [Hd Hb]. unfold Heap.consider, Heap.bind, consider.
  rewrite (get_annot_run _ _ _ Hitem). unfold Heap.ret.
  eexists. split; [reflexivity|]. rewrite Hd.
  destruct (isBelow neume syllable && isHorizontallyValid neume syllable);
    [destruct (withinGap neume syllable);
     [destruct (distance neume syllable <? snd best)%float|]|];
    split; simpl; auto.
Qed.

Lemma inner_run neume h items : forall syllables r best,
  Heap.holds Heap.Annotated h items syllables ->
  Heap.same_best h r best ->
  exists r',
    Heap.for_of items (Heap.consider neume) r h = Some (r', h)
    /\ Heap.same_best h r' (fold_left (consider neume) syllables best).
Proof.
  induction items as [|item rest IH]; intros syllables r best Hs Hb;
    inversion Hs as [|? syllable ? syllables' Hitem Hrest]; subst; simpl.
  - exists r. split; auto.
  - destruct (consider_run neume h item syllable r best Hitem Hb)
      as (r1 & Hstep & Hb1).
    unfold Heap.bind. rewrite Hstep. apply IH; auto.
Qed.

Lemma link_run h cs ns ss item neume :
  Heap.running h0 h cs ns ss ->
  nth_error h item = Some (Heap.Annotated neume) ->
  exists h',
    Heap.link (length h0) (S (S (length h0))) tt item h = Some (tt, h')
    /\ Heap.stable h h'
    /\ Heap.running h0 h' (link ss cs neume) ns ss.
Proof.
  intros Hrun Hitem. unfold Heap.link, Heap.bind, link, closest.
  rewrite (get_annot_run _ _ _ Hitem).
  destruct (Heap.run_syllables _ _ _ _ _ Hrun) as (items & Harr & Hss).
  rewrite (get_array_run _ _ _ Harr).
  destruct (inner_run neume h items ss (None, infinity) (None, infinity) Hss)
    as (r & Hloop & Hd & Hb).
  { split; simpl; auto. }
  rewrite Hloop.
  destruct (fst r) as [l|], (fst (fold_left (consider neume) ss (None, infinity)))
    as [syllable|]; try contradiction.
  - rewrite (get_annot_run _ _ _ Hb). unfold Heap.alloc.
    set (c := connect neume syllable).
    pose proof (running_alloc h0 h cs ns ss (Heap.Connected c) Hrun) as Hrun'.
    pose proof (nth_error_fresh h (Heap.Connected c)) as Hnew.
    destruct (Heap.run_connections _ _ _ _ _ Hrun') as (ci & Hc & _).
    rewrite (push_run _ _ _ (length h) Hc). eexists. split; [reflexivity|].
    split.
    + eapply stable_trans; [apply stable_alloc | eapply stable_update; eauto].
    + eapply running_push_connection; eauto.
  - exists h. split; [reflexivity|]. split; [apply stable_refl | exact Hrun].
Qed.

Lemma outer_run ns ss items : forall neumes h cs,
  Heap.holds Heap.Annotated h items neumes ->
  Heap.running h0 h cs ns ss ->
  exists h',
    Heap.for_of items (Heap.link (length h0) (S (S (length h0)))) tt h
    = Some (tt, h')
    /\ Heap.stable h h'
    /\ Heap.running h0 h' (fold_left (link ss) neumes cs) ns ss.
Proof.
  induction items as [|item rest IH]; intros neumes h cs Hn Hrun;
    inversion Hn as [|? neume ? neumes' Hitem Hrest]; subst; simpl.
  - exists h. split; [reflexivity|]. split; [apply stable_refl | exact Hrun].
  - destruct (link_run h cs ns ss item neume Hrun Hitem)
      as (h1 & Hstep & Hst1 & Hrun1).
    unfold Heap.bind. rewrite Hstep.
    destruct (IH neumes' h1 (link ss cs neume)) as (h2 & Hloop & Hst2 & Hrun2).
    + eapply holds_stable; eauto.
    + exact Hrun1.
    + exists h2. split; [exact Hloop|]. split; [eapply stable_trans; eauto | exact Hrun2].
Qed.

End Loops.

(** A run on an array of records succeeds, returns the connections of
    [findConnections] in a fresh array, and leaves every object of the
    initial store as it was. *)
Lemma run_findConnections h events evs :
  Heap.read_events events h = Some evs ->
  exists r h',
    Heap.findConnections events h = Some (r, h')
    /\ Heap.read_connections r h' = Some (findConnections evs)
    /\ Heap.preserved h h'.
Proof.
  intros Hread. apply (read_array_holds _ _ _ get_event_iff) in Hread.
  destruct Hread as (items & Harr & Hev).
  unfold Heap.findConnections, Heap.bind, Heap.alloc.
  set (h1 := ((h ++ [Heap.Array []]) ++ [Heap.Array []]) ++ [Heap.Array []]).
  assert (Hp1 : Heap.preserved h h1)
    by (intros l o H; now do 3 apply nth_error_alloc).
  rewrite !length_app. simpl.
  replace (length h + 1) with (S (length h)) by lia.
  replace (S (length h) + 1) with (S (S (length h))) by lia.
  rewrite (get_array_run _ _ _ (Hp1 _ _ Harr)).
  destruct (forEach_run h items evs 0 h1 [] [] [])
    as (h2 & Hloop1 & Hst2 & Hrun2).
  { eapply holds_preserved; eauto. }
  { apply running_start. }
  rewrite Hloop1.
  destruct (Heap.run_neumes _ _ _ _ _ Hrun2) as (nrefs & Hn & Hns).
  rewrite (get_array_run _ _ _ Hn).
  destruct (outer_run h _ _ nrefs _ h2 [] Hns Hrun2)
    as (h3 & Hloop2 & Hst3 & Hrun3).
  rewrite Hloop2. exists (length h), h3. split; [reflexivity|]. split.
  - apply (read_array_holds _ _ _ get_connection_iff).
    destruct (Heap.run_connections _ _ _ _ _ Hrun3) as (crefs & Hc & Hcs).
    exists crefs. split; auto. unfold findConnections.
    destruct (forEach evs 0 ([], [])); exact Hcs.
  - apply (Heap.run_frame _ _ _ _ _ Hrun3).
Qed.

(** ** The properties of the specification *)

Section Claims.
Local Open Scope float_scope.

(** The connected syllable in terms of [eligible] and [distance]. *)
Lemma closest_by_distance events c :
  In c (findConnections events) ->
  exists neume syllable before after,
    annotation_at events (Connection.neumeId c) = Some neume
    /\ annotation_at events (Connection.syllableId c) = Some syllable
    /\ syllables_of events = before ++ syllable :: after
    /\ eligible neume syllable = true
    /\ (forall s, In s (syllables_of events) -> eligible neume s = true ->
          (distance neume syllable <=? distance neume s) = true
          \/ is_nan (distance neume s) = true)
    /\ (forall s, In s before -> eligible neume s = true ->
          (distance neume syllable <? distance neume s) = true
          \/ is_nan (distance neume s) = true).
Proof.
  intros H. apply emitted in H.
  destruct H as (neume & syllable & before & after & _ & _ & Hsplit
                 & Hn & Hs & Hel & Hbefore & Hafter).
  exists neume, syllable, before, after. repeat split; auto.
  intros s Hin Hs'. rewrite Hsplit in Hin. apply in_app_iff in Hin.
  destruct Hin as [Hin | [<- | Hin]].
  - destruct (Hbefore _ Hin Hs') as [Hlt | Hnan]; auto.
    left. apply ltb_leb, Hlt.
  - destruct (is_nan (distance neume syllable)) eqn:Hnan; auto.
    left. apply leb_refl, Hnan.
  - auto.
Qed.

(** C1.  For every input and every connection emitted, with [N] the
    record at [neumeId], [S] the record at [syllableId],
    [Nbottom = N.y + N.height] and [Ncx = N.x + N.width / 2]:
    [S] passes the vertical test [S.y >= N.y], the horizontal test
    [S.x - S.width <= Ncx <= S.x + S.width + S.width] and the gap test
    [0 <= S.y - Nbottom < N.height * 5]; its score
    [(S.y - Nbottom) * 2 + |Ncx - (S.x + S.width / 2)|] is at most the
    score of every syllable of the candidate array that passes the three
    tests (unless that score is NaN), and strictly below the score of
    every such syllable met earlier in the array, so that among equal
    minimal scores the first one met is chosen. *)
Theorem closest_eligible_syllable_first_wins events c :
  In c (findConnections events) ->
  exists neume syllable before after,
    annotation_at events (Connection.neumeId c) = Some neume
    /\ annotation_at events (Connection.syllableId c) = Some syllable
    /\ syllables_of events = before ++ syllable :: after
    /\ let Nbottom := Annot.y neume + Annot.height neume in
       let Ncx := Annot.x neume + Annot.width neume / 2 in
       let passes := fun s : Annot.t =>
         geb (Annot.y s) (Annot.y neume)
         && (geb Ncx (Annot.x s - Annot.width s)
             && (Ncx <=? Annot.x s + Annot.width s + Annot.width s))
         && (geb (Annot.y s - Nbottom) 0
             && (Annot.y s - Nbottom <? Annot.height neume * 5)) in
       let score := fun s : Annot.t =>
         (Annot.y s - Nbottom) * 2
         + abs (Ncx - (Annot.x s + Annot.width s / 2)) in
       passes syllable = true
       /\ (forall s, In s (syllables_of events) -> passes s = true ->
             (score syllable <=? score s) = true
             \/ is_nan (score s) = true)
       /\ (forall s, In s before -> passes s = true ->
             (score syllable <? score s) = true
             \/ is_nan (score s) = true).
Proof.
  intros H.
  destruct (closest_by_distance events c H)
    as (neume & syllable & before & after & Hn & Hs & Hsplit
        & Hel & Hmin & Hfirst).
  exists neume, syllable, before, after.
  split; [exact Hn|]. split; [exact Hs|]. split; [exact Hsplit|].
  cbv zeta. split; [exact Hel|]. split; [exact Hmin | exact Hfirst].
Qed.

Lemma closest_eligible_syllable_first_wins_witness :
  exists neume syllable before after,
    annotation_at scenario_tie 1 = Some neume
    /\ annotation_at scenario_tie 0 = Some syllable
    /\ syllables_of scenario_tie = before ++ syllable :: after
    /\ let Nbottom := Annot.y neume + Annot.height neume in
       let Ncx := Annot.x neume + Annot.width neume / 2 in
       let passes := fun s : Annot.t =>
         geb (Annot.y s) (Annot.y neume)
         && (geb Ncx (Annot.x s - Annot.width s)
             && (Ncx <=? Annot.x s + Annot.width s + Annot.width s))
         && (geb (Annot.y s - Nbottom) 0
             && (Annot.y s - Nbottom <? Annot.height neume * 5)) in
       let score := fun s : Annot.t =>
         (Annot.y s - Nbottom) * 2
         + abs (Ncx - (Annot.x s + Annot.width s / 2)) in
       passes syllable = true
       /\ (forall s, In s (syllables_of scenario_tie) -> passes s = true ->
             (score syllable <=? score s) = true
             \/ is_nan (score s) = true)
       /\ (forall s, In s before -> passes s = true ->
             (score syllable <? score s) = true
             \/ is_nan (score s) = true).
Proof.
  apply (closest_eligible_syllable_first_wins
           scenario_tie (Connection.mk 1 0 5 10 5 15)).
  vm_compute. auto.
Defined.

(** C2.  For every input, no two connections of the output share a neume
    reference, the neume references increase along the output (the
    connections come in the order of their neumes in the input), and each
    of them is the position of a record of category neume. *)
Theorem one_connection_per_neume_in_input_order events :
  NoDup (map Connection.neumeId (findConnections events))
  /\ StronglySorted lt (map Connection.neumeId (findConnections events))
  /\ Forall (fun i => exists event, nth_error events i = Some event
                                    /\ Event.type event = "neume-type"%string)
            (map Connection.neumeId (findConnections events)).
Proof.
  rewrite findConnections_pick.
  destruct (neumeIds_sorted (syllables_of events) (neumes_of events))
    as [Hsorted Hin].
  { rewrite neumes_of_collect. apply collect_sorted. }
  split; [|split].
  - revert Hsorted. generalize (map Connection.neumeId
      (flat_map (pick (syllables_of events)) (neumes_of events))).
    induction 1 as [|i l Hl IH Hall]; constructor; auto.
    intros Hi. rewrite Forall_forall in Hall. apply Hall in Hi. lia.
  - exact Hsorted.
  - rewrite Forall_forall. intros i Hi. apply in_map_iff in Hi.
    destruct Hi as (c & <- & Hc). apply Hin, in_map_iff in Hc.
    destruct Hc as (neume & <- & Hn). rewrite neumes_of_collect in Hn.
    apply In_collect in Hn.
    destruct Hn as (i & event & Hi & Hnth & _ & Hty & _). simpl in Hi.
    exists event. rewrite Hi. split; auto. now apply String.eqb_eq.
Qed.

(** C3.  For every input and every connection emitted, the gap between
    the syllable's top edge and the neume's bottom edge is at least 0 and
    below five times the neume's height. *)
Theorem vertical_gap_bound events c :
  In c (findConnections events) ->
  exists neume syllable,
    annotation_at events (Connection.neumeId c) = Some neume
    /\ annotation_at events (Connection.syllableId c) = Some syllable
    /\ geb (Annot.y syllable - (Annot.y neume + Annot.height neume)) 0 = true
    /\ (Annot.y syllable - (Annot.y neume + Annot.height neume)
        <? Annot.height neume * 5) = true.
Proof.
  intros H. apply emitted in H.
  destruct H as (neume & syllable & _ & _ & _ & _ & _ & Hn & Hs & Hel & _).
  exists neume, syllable. apply eligible_tests in Hel.
  destruct Hel as (_ & _ & Hgap). unfold withinGap in Hgap.
  apply andb_true_iff in Hgap. tauto.
Qed.

Lemma vertical_gap_bound_witness :
  exists neume syllable,
    annotation_at scenario_A 0 = Some neume
    /\ annotation_at scenario_A 1 = Some syllable
    /\ geb (Annot.y syllable - (Annot.y neume + Annot.height neume)) 0 = true
    /\ (Annot.y syllable - (Annot.y neume + Annot.height neume)
        <? Annot.height neume * 5) = true.
Proof.
  apply (vertical_gap_bound scenario_A (Connection.mk 0 1 5 10 5 15)).
  vm_compute. auto.
Defined.

(** C4.  For every input and every connection emitted, the syllable's top
    edge is at or below the neume's top edge ([y] grows downwards); so a
    syllable whose top is strictly above the neume's top is never the one
    connected to it. *)
Theorem syllable_not_above_neume events c :
  In c (findConnections events) ->
  exists neume syllable,
    annotation_at events (Connection.neumeId c) = Some neume
    /\ annotation_at events (Connection.syllableId c) = Some syllable
    /\ geb (Annot.y syllable) (Annot.y neume) = true
    /\ (Annot.y syllable <? Annot.y neume) = false.
Proof.
  intros H. apply emitted in H.
  destruct H as (neume & syllable & _ & _ & _ & _ & _ & Hn & Hs & Hel & _).
  exists neume, syllable. apply eligible_tests in Hel.
  destruct Hel as (Hbelow & _). unfold isBelow, syllableTop in Hbelow.
  repeat split; auto. apply leb_not_ltb, Hbelow.
Qed.

Lemma syllable_not_above_neume_witness :
  exists neume syllable,
    annotation_at scenario_D 0 = Some neume
    /\ annotation_at scenario_D 2 = Some syllable
    /\ geb (Annot.y syllable) (Annot.y neume) = true
    /\ (Annot.y syllable <? Annot.y neume) = false.
Proof.
  apply (syllable_not_above_neume scenario_D (Connection.mk 0 2 5 30 5 35)).
  vm_compute. auto.
Defined.

(** C5.  For every input and every connection emitted, the neume's
    horizontal centre lies between the syllable's left edge minus its width
    and its right edge plus its width; and a neume for which no syllable
    passes that test gets no connection. *)
Theorem horizontal_band events :
  (forall c, In c (findConnections events) ->
     exists neume syllable,
       annotation_at events (Connection.neumeId c) = Some neume
       /\ annotation_at events (Connection.syllableId c) = Some syllable
       /\ geb (Annot.x neume + Annot.width neume / 2)
              (Annot.x syllable - Annot.width syllable) = true
       /\ (Annot.x neume + Annot.width neume / 2
           <=? Annot.x syllable + Annot.width syllable + Annot.width syllable)
          = true)
  /\ (forall i neume,
        annotation_at events i = Some neume ->
        (forall s, In s (syllables_of events) ->
                   isHorizontallyValid neume s = false) ->
        ~ In i (map Connection.neumeId (findConnections events))).
Proof.
  split.
  - intros c H. apply emitted in H.
    destruct H as (neume & syllable & _ & _ & _ & _ & _ & Hn & Hs & Hel & _).
    exists neume, syllable. apply eligible_tests in Hel.
    destruct Hel as (_ & Hband & _). unfold isHorizontallyValid in Hband.
    apply andb_true_iff in Hband. tauto.
  - intros i neume Hi Hnone Hin. apply in_map_iff in Hin.
    destruct Hin as (c & <- & Hc). apply emitted in Hc.
    destruct Hc as (neume' & syllable & before & after & _ & _ & Hsplit
                    & Hn & _ & Hel & _).
    assert (neume' = neume) by congruence. subst neume'.
    apply eligible_tests in Hel. destruct Hel as (_ & Hband & _).
    rewrite Hnone in Hband; [discriminate|].
    rewrite Hsplit. apply in_elt.
Qed.

Lemma horizontal_band_witness :
  (exists neume syllable,
     annotation_at scenario_A 0 = Some neume
     /\ annotation_at scenario_A 1 = Some syllable
     /\ geb (Annot.x neume + Annot.width neume / 2)
            (Annot.x syllable - Annot.width syllable) = true
     /\ (Annot.x neume + Annot.width neume / 2
         <=? Annot.x syllable + Annot.width syllable + Annot.width syllable)
        = true)
  /\ ~ In 0%nat (map Connection.neumeId (findConnections scenario_B)).
Proof.
  split.
  - apply (proj1 (horizontal_band scenario_A) (Connection.mk 0 1 5 10 5 15)).
    vm_compute. auto.
  - apply (proj2 (horizontal_band scenario_B) 0%nat
             (Annot.mk "neume-type" "punctum" 0 0 10 10 0)).
    + reflexivity.
    + intros s [<- | []]. vm_compute. reflexivity.
Defined.

Lemma lacks_position_iff event :
  lacks_position event = true
  <-> typeof (Event.x event) <> "number"%string
      \/ typeof (Event.y event) <> "number"%string.
Proof.
  unfold lacks_position. rewrite orb_true_iff, !negb_true_iff.
  rewrite <- !String.eqb_neq. tauto.
Qed.

Lemma unplaced_excluded events i event c :
  nth_error events i = Some event ->
  lacks_position event = true ->
  In c (findConnections events) ->
  Connection.neumeId c <> i /\ Connection.syllableId c <> i.
Proof.
  intros Hi Hlack Hc. apply emitted in Hc.
  destruct Hc as (neume & syllable & _ & _ & _ & _ & _ & Hn & Hs & _).
  assert (Hnone : annotation_at events i = None)
    by (unfold annotation_at; now rewrite Hi, Hlack).
  split; intros E; rewrite E in *; congruence.
Qed.

(** C6.  For every store in which the input is an array of records, the
    run does not fail, and a record whose [x] or [y] is not of type number
    is neither the neume nor the syllable of any connection returned. *)
Theorem unplaced_records_are_skipped h events evs :
  Heap.read_events events h = Some evs ->
  exists r h' connections,
    Heap.findConnections events h = Some (r, h')
    /\ Heap.read_connections r h' = Some connections
    /\ forall i event c,
         nth_error evs i = Some event ->
         typeof (Event.x event) <> "number"%string
         \/ typeof (Event.y event) <> "number"%string ->
         In c connections ->
         Connection.neumeId c <> i /\ Connection.syllableId c <> i.
Proof.
  intros Hread. destruct (run_findConnections h events evs Hread)
    as (r & h' & Hrun & Hcs & _).
  exists r, h', (findConnections evs). split; [exact Hrun|]. split; [exact Hcs|].
  intros i event c Hi Htype Hc. apply lacks_position_iff in Htype.
  exact (unplaced_excluded evs i event c Hi Htype Hc).
Qed.

Lemma unplaced_records_are_skipped_witness :
  exists r h' connections,
    Heap.findConnections 3%nat Heap.store_unplaced = Some (r, h')
    /\ Heap.read_connections r h' = Some connections
    /\ forall i event c,
         nth_error scenario_unplaced i = Some event ->
         typeof (Event.x event) <> "number"%string
         \/ typeof (Event.y event) <> "number"%string ->
         In c connections ->
         Connection.neumeId c <> i /\ Connection.syllableId c <> i.
Proof.
  apply (unplaced_records_are_skipped Heap.store_unplaced 3%nat scenario_unplaced).
  reflexivity.
Defined.

Lemma read_events_preserved h h' events evs :
  Heap.preserved h h' ->
  Heap.read_events events h = Some evs ->
  Heap.read_events events h' = Some evs.
Proof.
  intros Hp H. apply (read_array_holds _ _ _ get_event_iff) in H.
  destruct H as (items & Harr & Hev).
  apply (read_array_holds _ _ _ get_event_iff).
  exists items. split; [now apply Hp | eapply holds_preserved; eauto].
Qed.

Lemma read_connections_preserved h h' r cs :
  Heap.preserved h h' ->
  Heap.read_connections r h = Some cs ->
  Heap.read_connections r h' = Some cs.
Proof.
  intros Hp H. apply (read_array_holds _ _ _ get_connection_iff) in H.
  destruct H as (items & Harr & Hev).
  apply (read_array_holds _ _ _ get_connection_iff).
  exists items. split; [now apply Hp | eapply holds_preserved; eauto].
Qed.

(** C7.  For every store in which the input is an array of records, two
    successive runs on that input both succeed and return arrays with the
    same connections, which are a function of the input records alone; no
    object of the store is changed by a run, so the input reads the same
    after each run and the first result is still intact after the second. *)
Theorem deterministic_and_input_untouched h events evs :
  Heap.read_events events h = Some evs ->
  exists r1 h1 r2 h2,
    Heap.findConnections events h = Some (r1, h1)
    /\ Heap.findConnections events h1 = Some (r2, h2)
    /\ Heap.read_connections r1 h1 = Some (findConnections evs)
    /\ Heap.read_connections r1 h2 = Some (findConnections evs)
    /\ Heap.read_connections r2 h2 = Some (findConnections evs)
    /\ Heap.preserved h h1 /\ Heap.preserved h1 h2
    /\ Heap.read_events events h1 = Some evs
    /\ Heap.read_events events h2 = Some evs.
Proof.
  intros Hread.
  destruct (run_findConnections h events evs Hread)
    as (r1 & h1 & Hrun1 & Hcs1 & Hp1).
  pose proof (read_events_preserved _ _ _ _ Hp1 Hread) as Hread1.
  destruct (run_findConnections h1 events evs Hread1)
    as (r2 & h2 & Hrun2 & Hcs2 & Hp2).
  exists r1, h1, r2, h2. repeat split; auto.
  - eapply read_connections_preserved; eauto.
  - eapply read_events_preserved; eauto.
Qed.

Lemma deterministic_and_input_untouched_witness :
  exists r1 h1 r2 h2,
    Heap.findConnections 3%nat Heap.store_unplaced = Some (r1, h1)
    /\ Heap.findConnections 3%nat h1 = Some (r2, h2)
    /\ Heap.read_connections r1 h1 = Some (findConnections scenario_unplaced)
    /\ Heap.read_connections r1 h2 = Some (findConnections scenario_unplaced)
    /\ Heap.read_connections r2 h2 = Some (findConnections scenario_unplaced)
    /\ Heap.preserved Heap.store_unplaced h1 /\ Heap.preserved h1 h2
    /\ Heap.read_events 3%nat h1 = Some scenario_unplaced
    /\ Heap.read_events 3%nat h2 = Some scenario_unplaced.
Proof.
  apply (deterministic_and_input_untouched Heap.store_unplaced 3%nat scenario_unplaced).
  reflexivity.
Defined.

(** C8, as stated: it fails on [scenario_C_wide], where the syllable that
    touches the neume's bottom edge is 40 pixels off centre and loses, with
    score 40, against the syllable one pixel lower, with score 2. *)
Lemma vertically_closer_can_lose : ~ vertically_closer_wins scenario_C_wide.
Proof.
  intros H.
  specialize (H (Annot.mk "neume-type" "clivis" 0 0 10 10 0)
                (Annot.mk "syllable" "Al" 30 10 30 5 1)
                (Annot.mk "syllable" "le" 0 11 10 5 2)).
  apply (f_equal (map Connection.syllableId)) in H;
    [vm_compute in H; discriminate | | | | |];
    try reflexivity.
  left. reflexivity.
Qed.

(** C8, amended.  For every input with one neume and two syllables both
    eligible for it, where one syllable is closer vertically than the other
    and its score [verticalDist * 2 + horizontalDist] is the smaller of the
    two, the neume is connected to that syllable, whichever comes first and
    even if the other is better centred. *)
Theorem vertically_closer_wins_on_score events neume s1 s2 :
  neumes_of events = [neume] ->
  syllables_of events = [s1; s2] \/ syllables_of events = [s2; s1] ->
  eligible neume s1 = true ->
  eligible neume s2 = true ->
  (verticalDist neume s1 <? verticalDist neume s2) = true ->
  (distance neume s1 <? distance neume s2) = true ->
  findConnections events = [connect neume s1].
Proof.
  intros Hn Hs H1 H2 _ Hscore.
  rewrite findConnections_pick, Hn. simpl. rewrite app_nil_r.
  unfold pick, closest.
  pose proof (ltb_infinity _ _ Hscore) as Hfin.
  pose proof (ltb_asym _ _ Hscore) as Hback.
  destruct Hs as [-> | ->]; simpl; rewrite !consider_eligible; simpl.
  - rewrite H1, Hfin. simpl. rewrite H2, Hback. reflexivity.
  - rewrite H2. simpl. destruct (distance neume s2 <? infinity); simpl.
    + rewrite H1, Hscore. reflexivity.
    + rewrite H1, Hfin. reflexivity.
Qed.

Lemma vertically_closer_wins_on_score_witness :
  findConnections scenario_C
  = [connect (Annot.mk "neume-type" "clivis" 0 0 10 10 0)
             (Annot.mk "syllable" "Al" 4 12 10 5 1)].
Proof.
  apply (vertically_closer_wins_on_score scenario_C
           (Annot.mk "neume-type" "clivis" 0 0 10 10 0)
           (Annot.mk "syllable" "Al" 4 12 10 5 1)
           (Annot.mk "syllable" "le" 0 20 10 5 2));
    try reflexivity.
  left. reflexivity.
Defined.

(** C9.  For every input, a record whose height equals 0 is the neume of
    no connection. *)
Theorem flat_neume_never_connected events i event :
  nth_error events i = Some event ->
  (Event.height event =? 0) = true ->
  ~ In i (map Connection.neumeId (findConnections events)).
Proof.
  intros Hi Hflat Hin. apply in_map_iff in Hin.
  destruct Hin as (c & <- & Hc). apply emitted in Hc.
  destruct Hc as (neume & syllable & _ & _ & _ & _ & _ & Hn & _ & Hel & _).
  unfold annotation_at in Hn. rewrite Hi in Hn.
  destruct (lacks_position event); [discriminate|]. injection Hn as <-.
  apply eligible_tests in Hel. destruct Hel as (_ & _ & Hgap).
  unfold withinGap in Hgap. apply andb_true_iff in Hgap.
  destruct Hgap as [Hlow Hhigh]. unfold maxVerticalGap in Hhigh. simpl in Hhigh.
  rewrite (zero_gap _ _ Hflat Hlow) in Hhigh. discriminate.
Qed.

Lemma flat_neume_never_connected_witness :
  ~ In 0%nat (map Connection.neumeId (findConnections scenario_flat)).
Proof.
  apply (flat_neume_never_connected scenario_flat 0%nat
           (box "neume-type" "punctum" 0 10 10 0));
    reflexivity.
Defined.

Lemma same_box_unlabel events1 events2 :
  Forall2 same_box events1 events2 ->
  map unlabel events1 = map unlabel events2.
Proof.
  induction 1 as [|a b l1 l2 Hab _ IH]; simpl; [reflexivity|].
  rewrite IH. f_equal. destruct a, b. unfold same_box in Hab. simpl in Hab.
  destruct Hab as (-> & -> & -> & -> & ->). reflexivity.
Qed.

Lemma collect_unlabel neume events : forall index,
  collect neume (map unlabel events) index
  = map unlabelled (collect neume events index).
Proof.
  induction events as [|event rest IH]; intros index; simpl; [reflexivity|].
  rewrite IH, map_app. f_equal.
  change (lacks_position (unlabel event)) with (lacks_position event).
  destruct (negb (lacks_position event) && _); reflexivity.
Qed.

Lemma consider_unlabelled neume best s :
  consider (unlabelled neume) (option_map unlabelled (fst best), snd best)
           (unlabelled s)
  = (option_map unlabelled (fst (consider neume best s)),
     snd (consider neume best s)).
Proof.
  unfold consider.
  change (isBelow (unlabelled neume) (unlabelled s)) with (isBelow neume s).
  change (isHorizontallyValid (unlabelled neume) (unlabelled s))
    with (isHorizontallyValid neume s).
  change (withinGap (unlabelled neume) (unlabelled s)) with (withinGap neume s).
  change (distance (unlabelled neume) (unlabelled s)) with (distance neume s).
  simpl.
  destruct (isBelow neume s && isHorizontallyValid neume s);
    [destruct (withinGap neume s);
     [destruct (distance neume s <? snd best)|]|];
    reflexivity.
Qed.

Lemma fold_consider_unlabelled neume syllables : forall best,
  fold_left (consider (unlabelled neume)) (map unlabelled syllables)
            (option_map unlabelled (fst best), snd best)
  = (option_map unlabelled (fst (fold_left (consider neume) syllables best)),
     snd (fold_left (consider neume) syllables best)).
Proof.
  induction syllables as [|s rest IH]; intros best; simpl; [reflexivity|].
  rewrite consider_unlabelled. apply IH.
Qed.

Lemma pick_unlabelled syllables neume :
  pick (map unlabelled syllables) (unlabelled neume) = pick syllables neume.
Proof.
  unfold pick, closest.
  pose proof (fold_consider_unlabelled neume syllables (None, infinity)) as H.
  simpl in H. rewrite H. simpl.
  destruct (fst (fold_left (consider neume) syllables (None, infinity)));
    reflexivity.
Qed.

Lemma findConnections_unlabel events :
  findConnections (map unlabel events) = findConnections events.
Proof.
  rewrite !findConnections_pick, !neumes_of_collect, !syllables_of_collect.
  rewrite !collect_unlabel.
  generalize (collect false events 0) as syllables.
  generalize (collect true events 0) as neumes.
  induction neumes as [|neume rest IH]; intros syllables; simpl; [reflexivity|].
  now rewrite pick_unlabelled, IH.
Qed.

(** C10.  For any two inputs of the same length whose records agree, one
    by one, on category, [x], [y], width and height, the connections are
    the same: the labels play no part. *)
Theorem labels_play_no_part events1 events2 :
  Forall2 same_box events1 events2 ->
  findConnections events1 = findConnections events2.
Proof.
  intros H. apply same_box_unlabel in H.
  rewrite <- (findConnections_unlabel events1), H.
  apply findConnections_unlabel.
Qed.

Lemma labels_play_no_part_witness :
  findConnections scenario_A = findConnections scenario_A_relabelled.
Proof.
  apply (labels_play_no_part scenario_A scenario_A_relabelled).
  repeat constructor.
Defined.

End Claims.

(** ** Further properties of [findConnections] *)

Section NaN.
Local Open Scope float_scope.

Lemma add_nan_l a b : is_nan a = true -> is_nan (a + b) = true.
Proof.
  rewrite !is_nan_spec, add_spec. intros ->. reflexivity.
Qed.

Lemma add_nan_r a b : is_nan b = true -> is_nan (a + b) = true.
Proof.
  rewrite !is_nan_spec, add_spec. intros ->.
  destruct (Prim2SF a); reflexivity.
Qed.

Lemma sub_nan_l a b : is_nan a = true -> is_nan (a - b) = true.
Proof.
  rewrite !is_nan_spec, sub_spec. intros ->. reflexivity.
Qed.

Lemma sub_nan_r a b : is_nan b = true -> is_nan (a - b) = true.
Proof.
  rewrite !is_nan_spec, sub_spec. intros ->.
  destruct (Prim2SF a); reflexivity.
Qed.

Lemma div_nan_l a b : is_nan a = true -> is_nan (a / b) = true.
Proof.
  rewrite !is_nan_spec, div_spec. intros ->. reflexivity.
Qed.

Lemma leb_nan_l a b : is_nan a = true -> (a <=? b) = false.
Proof.
  rewrite is_nan_spec, leb_spec. intros ->. reflexivity.
Qed.

Lemma leb_nan_r a b : is_nan b = true -> (a <=? b) = false.
Proof.
  rewrite is_nan_spec, leb_spec. intros ->.
  destruct (Prim2SF a); reflexivity.
Qed.

End NaN.

Section Endpoints.
Local Open Scope float_scope.

(** Every connection, traced back to the two input records it links. *)
Lemma emitted_records events c :
  In c (findConnections events) ->
  exists ne se,
    nth_error events (Connection.neumeId c) = Some ne
    /\ nth_error events (Connection.syllableId c) = Some se
    /\ lacks_position ne = false /\ lacks_position se = false
    /\ String.eqb (Event.type ne) "neume-type" = true
    /\ String.eqb (Event.type se) "neume-type" = false
    /\ c = connect (spread ne (Connection.neumeId c))
                   (spread se (Connection.syllableId c))
    /\ eligible (spread ne (Connection.neumeId c))
                (spread se (Connection.syllableId c)) = true
    /\ (distance (spread ne (Connection.neumeId c))
                 (spread se (Connection.syllableId c)) <? infinity) = true.
Proof.
  intros H. apply In_findConnections in H.
  destruct H as (neume & syllable & Hn & Hbest & ->).
  pose proof (best_of_closest neume (syllables_of events)) as Hinv.
  unfold best_of in Hinv. rewrite Hbest in Hinv.
  destruct Hinv as (_ & Hel & Hfin & before & after & Hsplit & _).
  assert (Hs : In syllable (syllables_of events))
    by (rewrite Hsplit; apply in_elt).
  rewrite neumes_of_collect in Hn. rewrite syllables_of_collect in Hs.
  apply In_collect in Hn. apply In_collect in Hs.
  destruct Hn as (i & ne & Hi & Hne & Hpn & Htn & Hneume).
  destruct Hs as (j & se & Hj & Hse & Hps & Hts & Hsyllable).
  simpl in Hi, Hj, Hneume, Hsyllable. simpl. rewrite Hi, Hj.
  exists ne, se. rewrite <- Hneume, <- Hsyllable. repeat split; auto.
Qed.

Lemma connection_ends_aux events c :
  In c (findConnections events) ->
  exists ne se,
    nth_error events (Connection.neumeId c) = Some ne
    /\ nth_error events (Connection.syllableId c) = Some se
    /\ Event.type ne = "neume-type"%string
    /\ Event.type se <> "neume-type"%string.
Proof.
  intros H. apply emitted_records in H.
  destruct H as (ne & se & Hne & Hse & _ & _ & Htn & Hts & _).
  exists ne, se. apply String.eqb_eq in Htn. apply String.eqb_neq in Hts. auto.
Qed.

(** X1.  The anchors of every connection are the bottom centre of its
    neume's box and the top centre of its syllable's box. *)
Theorem connection_anchors events c :
  In c (findConnections events) ->
  exists neume syllable,
    annotation_at events (Connection.neumeId c) = Some neume
    /\ annotation_at events (Connection.syllableId c) = Some syllable
    /\ Connection.neumeX c = Annot.x neume + Annot.width neume / 2
    /\ Connection.neumeY c = Annot.y neume + Annot.height neume
    /\ Connection.syllableX c = Annot.x syllable + Annot.width syllable / 2
    /\ Connection.syllableY c = Annot.y syllable.
Proof.
  intros H. apply emitted in H.
  destruct H as (neume & syllable & _ & _ & -> & _ & _ & Hn & Hs & _).
  exists neume, syllable. repeat split; auto.
Qed.

Lemma connection_anchors_witness :
  exists neume syllable,
    annotation_at scenario_C 0 = Some neume
    /\ annotation_at scenario_C 1 = Some syllable
    /\ 5 = Annot.x neume + Annot.width neume / 2
    /\ 10 = Annot.y neume + Annot.height neume
    /\ 9 = Annot.x syllable + Annot.width syllable / 2
    /\ 12 = Annot.y syllable.
Proof.
  apply (connection_anchors scenario_C (Connection.mk 0 1 5 10 9 12)).
  vm_compute. auto.
Defined.

(** X2.  Both ends of a connection are positions of the input; the neume
    end is a record of type neume-type, the syllable end a record of any
    other type, so the two ends are never the same record; and both
    records carry a numeric [x] and [y]. *)
Theorem connection_ends events c :
  In c (findConnections events) ->
  exists ne se,
    nth_error events (Connection.neumeId c) = Some ne
    /\ nth_error events (Connection.syllableId c) = Some se
    /\ Event.type ne = "neume-type"%string
    /\ Event.type se <> "neume-type"%string
    /\ typeof (Event.x ne) = "number"%string
    /\ typeof (Event.y ne) = "number"%string
    /\ typeof (Event.x se) = "number"%string
    /\ typeof (Event.y se) = "number"%string
    /\ Connection.neumeId c <> Connection.syllableId c
    /\ (Connection.neumeId c < length events)%nat
    /\ (Connection.syllableId c < length events)%nat.
Proof.
  intros H. apply emitted_records in H.
  destruct H as (ne & se & Hne & Hse & Hpn & Hps & Htn & Hts & _).
  exists ne, se.
  apply String.eqb_eq in Htn. apply String.eqb_neq in Hts.
  unfold lacks_position in Hpn, Hps.
  apply orb_false_iff in Hpn, Hps. rewrite !negb_false_iff in Hpn, Hps.
  destruct Hpn as [Hxn Hyn], Hps as [Hxs Hys].
  apply String.eqb_eq in Hxn, Hyn, Hxs, Hys.
  repeat split; auto.
  - intros E. rewrite E in Hne. congruence.
  - apply nth_error_Some. congruence.
  - apply nth_error_Some. congruence.
Qed.

Lemma connection_ends_witness :
  exists ne se,
    nth_error scenario_tie 1 = Some ne
    /\ nth_error scenario_tie 0 = Some se
    /\ Event.type ne = "neume-type"%string
    /\ Event.type se <> "neume-type"%string
    /\ typeof (Event.x ne) = "number"%string
    /\ typeof (Event.y ne) = "number"%string
    /\ typeof (Event.x se) = "number"%string
    /\ typeof (Event.y se) = "number"%string
    /\ 1%nat <> 0%nat
    /\ (1 < length scenario_tie)%nat
    /\ (0 < length scenario_tie)%nat.
Proof.
  apply (connection_ends scenario_tie (Connection.mk 1 0 5 10 5 15)).
  vm_compute. auto.
Defined.



(** X4.  An input whose records are all of type neume-type, or none of
    which is, has no connection: a connection needs both a neume and a
    syllable. *)
Theorem one_category_no_connection events :
  (forall event, In event events -> Event.type event = "neume-type"%string)
  \/ (forall event, In event events -> Event.type event <> "neume-type"%string) ->
  findConnections events = [].
Proof.
  intros H.
  destruct (findConnections events) as [|c rest] eqn:E; [reflexivity|].
  assert (Hc : In c (findConnections events)) by (rewrite E; left; reflexivity).
  apply connection_ends_aux in Hc.
  destruct Hc as (ne & se & Hne & Hse & Htn & Hts).
  apply nth_error_In in Hne, Hse. destruct H as [H | H].
  - elim Hts. apply H, Hse.
  - elim (H ne Hne Htn).
Qed.

Lemma one_category_no_connection_witness :
  findConnections [box "neume-type" "punctum" 0 0 10 10;
                   box "neume-type" "virga" 0 15 10 5] = [].
Proof.
  apply one_category_no_connection.
  left. intros event [<- | [<- | []]]; reflexivity.
Defined.

End Endpoints.

(** ** Appending a record to the input *)

Section Append.
Local Open Scope float_scope.

Lemma collect_app neume events1 events2 : forall index,
  collect neume (events1 ++ events2) index
  = collect neume events1 index
    ++ collect neume events2 (index + length events1).
Proof.
  induction events1 as [|event rest IH]; intros index; simpl.
  - now rewrite Nat.add_0_r.
  - rewrite IH, <- app_assoc, Nat.add_succ_r. reflexivity.
Qed.

Lemma collect_one neume event index :
  collect neume [event] index = []
  \/ collect neume [event] index = [spread event index].
Proof.
  simpl. destruct (negb (lacks_position event) && _); auto.
Qed.

Lemma closest_app neume syllables more :
  closest neume (syllables ++ more)
  = fold_left (consider neume) more (closest neume syllables).
Proof. unfold closest. apply fold_left_app. Qed.

(** X5.  When a record is appended to the input, every neume that had a
    connection still has one: its connection is unchanged, or it now
    leads to the appended record. *)
Theorem append_keeps_neumes_connected events event c :
  In c (findConnections events) ->
  In c (findConnections (events ++ [event]))
  \/ exists c',
       In c' (findConnections (events ++ [event]))
       /\ Connection.neumeId c' = Connection.neumeId c
       /\ Connection.neumeX c' = Connection.neumeX c
       /\ Connection.neumeY c' = Connection.neumeY c
       /\ Connection.syllableId c' = length events.
Proof.
  intros H. apply In_findConnections in H.
  destruct H as (neume & b & Hn & Hbest & ->).
  assert (Hn' : In neume (neumes_of (events ++ [event]))).
  { rewrite neumes_of_collect, collect_app, in_app_iff. left.
    now rewrite <- neumes_of_collect. }
  assert (Hss : syllables_of (events ++ [event])
                = syllables_of events ++ collect false [event] (length events)).
  { rewrite !syllables_of_collect. apply collect_app. }
  destruct (collect_one false event (length events)) as [Hnew | Hnew];
    rewrite Hnew in Hss.
  - left. apply In_findConnections. exists neume, b.
    rewrite Hss, app_nil_r. auto.
  - assert (Hstep : fst (closest neume (syllables_of (events ++ [event])))
                    = Some b
                    \/ fst (closest neume (syllables_of (events ++ [event])))
                       = Some (spread event (length events))).
    { rewrite Hss, closest_app. simpl. rewrite consider_eligible.
      destruct (eligible neume _ && _); simpl; auto. }
    destruct Hstep as [Hstep | Hstep].
    + left. apply In_findConnections. eauto.
    + right. exists (connect neume (spread event (length events))).
      split; [apply In_findConnections; eauto | simpl; auto].
Qed.

Lemma append_keeps_neumes_connected_witness :
  In (Connection.mk 0 1 5 10 5 15)
     (findConnections (scenario_A ++ [box "syllable" "le" 0 12 10 5]))
  \/ exists c',
       In c' (findConnections (scenario_A ++ [box "syllable" "le" 0 12 10 5]))
       /\ Connection.neumeId c' = 0%nat
       /\ Connection.neumeX c' = 5
       /\ Connection.neumeY c' = 10
       /\ Connection.syllableId c' = length scenario_A.
Proof.
  apply (append_keeps_neumes_connected scenario_A
           (box "syllable" "le" 0 12 10 5) (Connection.mk 0 1 5 10 5 15)).
  vm_compute. auto.
Defined.

(** X6.  Appending a record that lacks a numeric position, or a record of
    type neume-type, leaves the connections found so far as they are, in
    place: at most one connection is added, at the end, for the appended
    neume, and none for a record without position. *)
Theorem append_non_syllable events event :
  lacks_position event = true \/ Event.type event = "neume-type"%string ->
  exists added,
    findConnections (events ++ [event]) = findConnections events ++ added
    /\ (length added <= 1)%nat
    /\ (lacks_position event = true -> added = [])
    /\ (forall c, In c added -> Connection.neumeId c = length events).
Proof.
  intros H.
  assert (Hss : syllables_of (events ++ [event]) = syllables_of events).
  { rewrite !syllables_of_collect, collect_app. simpl.
    destruct H as [-> | ->]; simpl; [|destruct (lacks_position event)];
      now rewrite app_nil_r. }
  rewrite !findConnections_pick, Hss, (neumes_of_collect (events ++ [event])).
  rewrite collect_app, flat_map_app, <- neumes_of_collect. simpl.
  eexists. split; [reflexivity|].
  destruct (lacks_position event) eqn:Hpos; simpl.
  - repeat split; auto. tauto.
  - destruct (Bool.eqb _ true); simpl; [|repeat split; auto; tauto].
    rewrite app_nil_r. unfold pick.
    destruct (fst (closest _ (syllables_of events))); simpl.
    + repeat split; auto; try discriminate. intros c [<- | []]. reflexivity.
    + repeat split; auto; try discriminate. tauto.
Qed.

Lemma append_non_syllable_witness :
  exists added,
    findConnections (scenario_tie ++ [box "neume-type" "virga" 2 1 10 10])
    = findConnections scenario_tie ++ added
    /\ (length added <= 1)%nat
    /\ (lacks_position (box "neume-type" "virga" 2 1 10 10) = true -> added = [])
    /\ (forall c, In c added -> Connection.neumeId c = length scenario_tie).
Proof.
  apply (append_non_syllable scenario_tie (box "neume-type" "virga" 2 1 10 10)).
  right. reflexivity.
Defined.

End Append.

(** ** Further properties of the run over the store *)

Section Fresh.

Lemma findConnections_ref h events r h' :
  Heap.findConnections events h = Some (r, h') -> r = length h.
Proof.
  unfold Heap.findConnections, Heap.bind, Heap.alloc, Heap.ret.
  repeat match goal with
         | |- context [match ?m with Some _ => _ | None => _ end] =>
             destruct m as [[? ?]|]
         end;
    intros H; try discriminate.
  now injection H as <- _.
Qed.

(** X7.  The array returned by a run on an array of records is a new
    object: its reference is the first one past the initial store, so it
    is no object of that store, not the input array in particular, and
    after the run it holds the connections. *)
Theorem result_is_a_new_array h events evs :
  Heap.read_events events h = Some evs ->
  exists r h',
    Heap.findConnections events h = Some (r, h')
    /\ r = length h
    /\ nth_error h r = None
    /\ r <> events
    /\ Heap.read_connections r h' = Some (findConnections evs).
Proof.
  intros Hread.
  destruct (run_findConnections h events evs Hread) as (r & h' & Hrun & Hcs & _).
  pose proof (findConnections_ref h events r h' Hrun) as ->.
  exists (length h), h'. repeat split; auto.
  - apply nth_error_None. lia.
  - intros E. apply (read_array_holds _ _ _ get_event_iff) in Hread.
    destruct Hread as (items & Harr & _).
    assert (events < length h) by (apply nth_error_Some; congruence). lia.
Qed.

Lemma result_is_a_new_array_witness :
  exists r h',
    Heap.findConnections 3 Heap.store_unplaced = Some (r, h')
    /\ r = length Heap.store_unplaced
    /\ nth_error Heap.store_unplaced r = None
    /\ r <> 3
    /\ Heap.read_connections r h' = Some (findConnections scenario_unplaced).
Proof.
  apply (result_is_a_new_array Heap.store_unplaced 3 scenario_unplaced).
  reflexivity.
Defined.

End Fresh.

Section NaNRecords.
Local Open Scope float_scope.

Lemma nan_neume_not_eligible neume syllable :
  is_nan (Annot.x neume) = true \/ is_nan (Annot.y neume) = true
  \/ is_nan (Annot.width neume) = true \/ is_nan (Annot.height neume) = true ->
  eligible neume syllable = false.
Proof.
  intros H. unfold eligible.
  destruct H as [H | [H | [H | H]]].
  - assert (E : isHorizontallyValid neume syllable = false).
    { unfold isHorizontallyValid, geb, neumeCenterX.
      rewrite (leb_nan_l (Annot.x neume + Annot.width neume / 2)).
      - apply andb_false_r.
      - now apply add_nan_l. }
    rewrite E, andb_false_r. reflexivity.
  - assert (E : isBelow neume syllable = false).
    { unfold isBelow, geb. now apply leb_nan_l. }
    rewrite E. reflexivity.
  - assert (E : isHorizontallyValid neume syllable = false).
    { unfold isHorizontallyValid, geb, neumeCenterX.
      rewrite (leb_nan_l (Annot.x neume + Annot.width neume / 2)).
      - apply andb_false_r.
      - now apply add_nan_r, div_nan_l. }
    rewrite E, andb_false_r. reflexivity.
  - assert (E : withinGap neume syllable = false).
    { unfold withinGap, geb, verticalDist, neumeBottomY.
      rewrite leb_nan_r; [reflexivity|]. now apply sub_nan_r, add_nan_r. }
    rewrite E, andb_false_r. reflexivity.
Qed.

Lemma nan_syllable_not_eligible neume syllable :
  is_nan (Annot.x syllable) = true \/ is_nan (Annot.y syllable) = true
  \/ is_nan (Annot.width syllable) = true ->
  eligible neume syllable = false.
Proof.
  intros H. unfold eligible.
  destruct H as [H | [H | H]].
  - assert (E : isHorizontallyValid neume syllable = false).
    { unfold isHorizontallyValid, geb, syllableLeft.
      rewrite leb_nan_l; [reflexivity|]. now apply sub_nan_l. }
    rewrite E, andb_false_r. reflexivity.
  - assert (E : isBelow neume syllable = false).
    { unfold isBelow, geb, syllableTop. now apply leb_nan_r. }
    rewrite E. reflexivity.
  - assert (E : isHorizontallyValid neume syllable = false).
    { unfold isHorizontallyValid, geb, syllableLeft.
      rewrite leb_nan_l; [reflexivity|]. now apply sub_nan_r. }
    rewrite E, andb_false_r. reflexivity.
Qed.

(** X8.  A record whose [x], [y] or [width] is NaN (a missing [width]
    behaves so) is neither end of any connection, although NaN passes
    the [typeof] test; and a record whose [height] is NaN is the neume of
    no connection. *)
Theorem nan_records_are_never_connected events i event c :
  nth_error events i = Some event ->
  In c (findConnections events) ->
  (is_nan (number_of (Event.x event)) = true
   \/ is_nan (number_of (Event.y event)) = true
   \/ is_nan (Event.width event) = true ->
   Connection.neumeId c <> i /\ Connection.syllableId c <> i)
  /\ (is_nan (Event.height event) = true -> Connection.neumeId c <> i).
Proof.
  intros Hi Hc. apply emitted_records in Hc.
  destruct Hc as (ne & se & Hne & Hse & _ & _ & _ & _ & _ & Hel & _).
  split; [intros H; split | intros H]; intros E; rewrite E in *.
  - assert (ne = event) by congruence. subst ne.
    rewrite nan_neume_not_eligible in Hel; [discriminate|]. simpl. tauto.
  - assert (se = event) by congruence. subst se.
    rewrite nan_syllable_not_eligible in Hel; [discriminate|]. simpl. tauto.
  - assert (ne = event) by congruence. subst ne.
    rewrite nan_neume_not_eligible in Hel; [discriminate|]. simpl. tauto.
Qed.

Lemma nan_records_are_never_connected_witness :
  (is_nan (number_of (JsNumber nan)) = true
   \/ is_nan (number_of (JsNumber 15)) = true
   \/ is_nan 10 = true ->
   0%nat <> 1%nat /\ 2%nat <> 1%nat)
  /\ (is_nan 5 = true -> 0%nat <> 1%nat).
Proof.
  apply (nan_records_are_never_connected
           [box "neume-type" "punctum" 0 0 10 10;
            box "syllable" "Al" nan 15 10 5;
            box "syllable" "le" 0 15 10 5]
           1%nat (box "syllable" "Al" nan 15 10 5)
           (Connection.mk 0 2 5 10 5 15)).
  - reflexivity.
  - vm_compute. auto.
Defined.

End NaNRecords.

(** ** What the inference does not read *)

Section Unread.
Local Open Scope float_scope.

Lemma same_geometry_normal events1 events2 :
  Forall2 same_geometry events1 events2 ->
  map without_syllable_height events1 = map without_syllable_height events2.
Proof.
  induction 1 as [|a b l1 l2 Hab _ IH]; simpl; [reflexivity|].
  rewrite IH. f_equal. destruct a as [ta va xa ya wa ha], b as [tb vb xb yb wb hb].
  unfold same_geometry in Hab. simpl in Hab.
  destruct Hab as (<- & <- & <- & <- & Hh).
  unfold without_syllable_height. simpl.
  destruct (String.eqb ta "neume-type") eqn:E; [|reflexivity].
  apply String.eqb_eq in E. now rewrite (Hh E).
Qed.

Lemma collect_neumes_normal events : forall index,
  collect true (map without_syllable_height events) index
  = map unlabelled (collect true events index).
Proof.
  induction events as [|event rest IH]; intros index; simpl; [reflexivity|].
  rewrite IH, map_app. f_equal.
  change (lacks_position (without_syllable_height event))
    with (lacks_position event).
  destruct (lacks_position event); simpl; [reflexivity|].
  unfold without_syllable_height, spread, unlabelled. simpl.
  destruct (String.eqb (Event.type event) "neume-type"); reflexivity.
Qed.

Lemma collect_syllables_normal events : forall index,
  collect false (map without_syllable_height events) index
  = map flat (collect false events index).
Proof.
  induction events as [|event rest IH]; intros index; simpl; [reflexivity|].
  rewrite IH, map_app. f_equal.
  change (lacks_position (without_syllable_height event))
    with (lacks_position event).
  destruct (lacks_position event); simpl; [reflexivity|].
  unfold without_syllable_height, spread, flat. simpl.
  destruct (String.eqb (Event.type event) "neume-type"); reflexivity.
Qed.

Lemma consider_flat neume best s :
  consider (unlabelled neume) (option_map flat (fst best), snd best) (flat s)
  = (option_map flat (fst (consider neume best s)),
     snd (consider neume best s)).
Proof.
  unfold consider.
  change (isBelow (unlabelled neume) (flat s)) with (isBelow neume s).
  change (isHorizontallyValid (unlabelled neume) (flat s))
    with (isHorizontallyValid neume s).
  change (withinGap (unlabelled neume) (flat s)) with (withinGap neume s).
  change (distance (unlabelled neume) (flat s)) with (distance neume s).
  simpl.
  destruct (isBelow neume s && isHorizontallyValid neume s);
    [destruct (withinGap neume s);
     [destruct (distance neume s <? snd best)|]|];
    reflexivity.
Qed.

Lemma fold_consider_flat neume syllables : forall best,
  fold_left (consider (unlabelled neume)) (map flat syllables)
            (option_map flat (fst best), snd best)
  = (option_map flat (fst (fold_left (consider neume) syllables best)),
     snd (fold_left (consider neume) syllables best)).
Proof.
  induction syllables as [|s rest IH]; intros best; simpl; [reflexivity|].
  rewrite consider_flat. apply IH.
Qed.

Lemma pick_flat syllables neume :
  pick (map flat syllables) (unlabelled neume) = pick syllables neume.
Proof.
  unfold pick, closest.
  pose proof (fold_consider_flat neume syllables (None, infinity)) as H.
  simpl in H. rewrite H. simpl.
  destruct (fst (fold_left (consider neume) syllables (None, infinity)));
    reflexivity.
Qed.

Lemma findConnections_normal events :
  findConnections (map without_syllable_height events) = findConnections events.
Proof.
  rewrite !findConnections_pick, !neumes_of_collect, !syllables_of_collect.
  rewrite collect_neumes_normal, collect_syllables_normal.
  generalize (collect false events 0) as syllables.
  generalize (collect true events 0) as neumes.
  induction neumes as [|neume rest IH]; intros syllables; simpl; [reflexivity|].
  now rewrite pick_flat, IH.
Qed.

(** X9.  The height of a record that is not a neume is never read: two
    inputs of the same length whose records agree, one by one, on type,
    [x], [y] and width, and on height where the record is a neume, have
    the same connections. *)
Theorem syllable_height_is_not_read events1 events2 :
  Forall2 same_geometry events1 events2 ->
  findConnections events1 = findConnections events2.
Proof.
  intros H. apply same_geometry_normal in H.
  rewrite <- (findConnections_normal events1), H.
  apply findConnections_normal.
Qed.

Lemma syllable_height_is_not_read_witness :
  findConnections scenario_A
  = findConnections [box "neume-type" "punctum" 0 0 10 10;
                     box "syllable" "Al" 0 15 10 300].
Proof.
  apply (syllable_height_is_not_read scenario_A
           [box "neume-type" "punctum" 0 0 10 10;
            box "syllable" "Al" 0 15 10 300]).
  repeat constructor. discriminate.
Defined.

End Unread.

(** ** The marker of a record *)

Section MarkerColours.

(** X10.  The fill colour [setAnnotation] gives a marker follows the same
    test on [type] as the inference: for every connection, the marker of
    the neume's record is filled blue and the marker of the syllable's
    record orange, and each shows its record's value as caption. *)
Theorem connections_run_from_blue_to_orange events c m :
  In c (findConnections events) ->
  exists ne se,
    nth_error events (Connection.neumeId c) = Some ne
    /\ nth_error events (Connection.syllableId c) = Some se
    /\ Marker.fillColor (setAnnotation m ne) = "blue"%string
    /\ Marker.fillColor (setAnnotation m se) = "orange"%string
    /\ Marker.text (setAnnotation m ne) = Event.value ne
    /\ Marker.text (setAnnotation m se) = Event.value se.
Proof.
  intros H. apply emitted_records in H.
  destruct H as (ne & se & Hne & Hse & _ & _ & Htn & Hts & _).
  exists ne, se. unfold setAnnotation. simpl. rewrite Htn, Hts.
  repeat split; assumption.
Qed.

Lemma connections_run_from_blue_to_orange_witness :
  exists ne se,
    nth_error scenario_A 0 = Some ne
    /\ nth_error scenario_A 1 = Some se
    /\ Marker.fillColor
         (setAnnotation (AnnotationMarker (Marker.mk "" "" "" 0%float
            (Marker.mkFontSize 0%float "" 0%float))) ne) = "blue"%string
    /\ Marker.fillColor
         (setAnnotation (AnnotationMarker (Marker.mk "" "" "" 0%float
            (Marker.mkFontSize 0%float "" 0%float))) se) = "orange"%string
    /\ Marker.text
         (setAnnotation (AnnotationMarker (Marker.mk "" "" "" 0%float
            (Marker.mkFontSize 0%float "" 0%float))) ne) = Event.value ne
    /\ Marker.text
         (setAnnotation (AnnotationMarker (Marker.mk "" "" "" 0%float
            (Marker.mkFontSize 0%float "" 0%float))) se) = Event.value se.
Proof.
  apply (connections_run_from_blue_to_orange scenario_A
           (Connection.mk 0 1 5 10 5 15)).
  vm_compute. auto.
Defined.


End MarkerColours.

(** ** The rows of the event log *)

Section Log.

Lemma decimal_inj i j : decimal i = decimal j -> i = j.
Proof.
  unfold decimal. intros H. apply Unsigned.to_uint_inj.
  apply (f_equal NilEmpty.uint_of_string) in H.
  rewrite !NilEmpty.usu in H. congruence.
Qed.

Lemma rows_length events : forall i, length (rows events i) = length events.
Proof.
  induction events as [|e rest IH]; intros i; simpl; auto.
Qed.

Lemma rows_nth events : forall i j e,
  nth_error events j = Some e ->
  nth_error (rows events i) j = Some (row e (i + j)).
Proof.
  induction events as [|e' rest IH]; intros i [|j] e H; simpl in *;
    try discriminate.
  - injection H as ->. now rewrite Nat.add_0_r.
  - rewrite Nat.add_succ_r. apply (IH (S i)), H.
Qed.

Lemma rows_keys events : forall i k,
  In k (map key (rows events i)) ->
  exists j, i <= j /\ k = Some ("event_" ++ decimal j)%string.
Proof.
  induction events as [|e rest IH]; intros i k; simpl; [tauto|].
  intros [<- | H].
  - exists i. auto.
  - destruct (IH _ _ H) as (j & Hj & ->). exists j. split; [lia | reflexivity].
Qed.

Lemma rows_keys_NoDup events : forall i, NoDup (map key (rows events i)).
Proof.
  induction events as [|e rest IH]; intros i; simpl; constructor; auto.
  intros H. apply rows_keys in H. destruct H as (j & Hj & E).
  injection E as E. apply decimal_inj in E. lia.
Qed.

(** X12.  The log of a non-empty list of events has one row per event,
    in the order of the events, each showing the event's type and value,
    and no two rows have the same key; the log of an empty list is the
    single line "Awaiting events...". *)
Theorem EventLog_rows events :
  (events <> [] ->
   length (children (EventLog events)) = length events
   /\ NoDup (map key (children (EventLog events)))
   /\ forall i e, nth_error events i = Some e ->
        nth_error (children (EventLog events)) i
        = Some (Div (Some ("event_" ++ decimal i)%string) ""
                    [Text (Event.type e); Text ": "; Text (Event.value e)]))
  /\ (events = [] ->
      children (EventLog events)
      = [Div None "text-gray-500" [Text "Awaiting events..."]]).
Proof.
  split.
  - intros Hne. unfold EventLog. simpl.
    destruct events as [|e rest]; [congruence|].
    change (Nat.eqb (length (e :: rest)) 0) with false. cbv iota.
    split; [apply rows_length|]. split; [apply rows_keys_NoDup|].
    intros i e' H. apply (rows_nth (e :: rest) 0 i e' H).
  - intros ->. reflexivity.
Qed.

End Log.

(** ** The two candidate arrays *)

Section Partition.

(** X13.  The first pass puts a record in [neumes], with its position in
    the input as index, exactly when its [x] and [y] are numbers and its
    type is neume-type, and in [syllables] exactly when its [x] and [y]
    are numbers and its type is anything else; a record without numeric
    position is in neither array. *)
Theorem records_are_separated_by_type events i event :
  nth_error events i = Some event ->
  (In (spread event i) (neumes_of events)
   <-> lacks_position event = false
       /\ Event.type event = "neume-type"%string)
  /\ (In (spread event i) (syllables_of events)
      <-> lacks_position event = false
          /\ Event.type event <> "neume-type"%string).
Proof.
  intros Hi. rewrite neumes_of_collect, syllables_of_collect.
  split; split.
  - intros H. apply In_collect in H.
    destruct H as (j & e & Hj & He & Hp & Ht & _). simpl in Hj. subst j.
    assert (e = event) by congruence. subst e.
    split; auto. now apply String.eqb_eq.
  - intros [Hp Ht]. apply (collect_In true events 0 i event Hi Hp).
    now apply String.eqb_eq.
  - intros H. apply In_collect in H.
    destruct H as (j & e & Hj & He & Hp & Ht & _). simpl in Hj. subst j.
    assert (e = event) by congruence. subst e.
    split; auto. now apply String.eqb_neq.
  - intros [Hp Ht]. apply (collect_In false events 0 i event Hi Hp).
    now apply String.eqb_neq.
Qed.

Lemma records_are_separated_by_type_witness :
  (In (spread (box "syllable" "le" 0 15 10 5) 2) (neumes_of scenario_unplaced)
   <-> lacks_position (box "syllable" "le" 0 15 10 5) = false
       /\ Event.type (box "syllable" "le" 0 15 10 5) = "neume-type"%string)
  /\ (In (spread (box "syllable" "le" 0 15 10 5) 2)
         (syllables_of scenario_unplaced)
      <-> lacks_position (box "syllable" "le" 0 15 10 5) = false
          /\ Event.type (box "syllable" "le" 0 15 10 5) <> "neume-type"%string).
Proof.
  apply (records_are_separated_by_type scenario_unplaced 2
           (box "syllable" "le" 0 15 10 5)).
  reflexivity.
Defined.

End Partition.
